(** * FlurryPP: overset connectivity, shape functions and solver helpers

    A shallow embedding of the parts of Flurry++ that the specification
    of the overset connectivity-and-exchange layer talks about:

    - [Geo]: the blanking codes of [include/geo.hpp];
    - [Funcs]: the shape functions and [getOrder] of [src/funcs.cpp];
    - [Solver]: the time-step reduction of [src/solver.cpp];
    - [TimeAdvance]: the time advancement of [src/solver.cpp];
    - [OverComm]: the exchange channel declared in [include/overComm.hpp].

    Numbers.  A C++ [double] is modelled by an exact rational ([Q]):
    rounding and signed zeros are outside the model, and equalities
    between computed values are stated with [==] ([Qeq]).  Two places
    say more.  The argument of [getOrder] is a vector of any doubles,
    so its entries are numbers, infinities or NaN ([Funcs.double]).
    The Runge-Kutta weights [1./6.] and [1./3.] are no binary fractions,
    so the tables hold the doubles nearest to them
    ([TimeAdvance.one_sixth], [TimeAdvance.one_third]).  A C++ [int] is
    a [Z]; where a value is narrowed or converted, the conversion is
    written out ([to_int], [to_size_t]).  A loop over a vector is a fold
    over its entries.  What C++ leaves undefined (a store or a read past
    the end of a buffer) has no counterpart in the model. *)

From Stdlib Require Import ZArith QArith Qminmax Qabs List Lia Lqa.
From Stdlib Require Import Permutation Sorted Bool.
From stdpp Require Import base list.
Import ListNotations.

#[local] Open Scope Z_scope.

(** ** Machine integers *)

Definition INT_MAX : Z := 2 ^ 31 - 1.
Definition INT_MIN : Z := - 2 ^ 31.

(** Conversion to a 32-bit [int]: reduction modulo 2^32 into
    [INT_MIN .. INT_MAX]. *)
Definition to_int (v : Z) : Z := (v + 2 ^ 31) mod 2 ^ 32 - 2 ^ 31.

(** Conversion to a 64-bit [size_t]: reduction modulo 2^64. *)
Definition to_size_t (v : Z) : Z := v mod 2 ^ 64.

(** ** geo.hpp: blanking codes *)

Module Geo.

(** [#define NORMAL 1], [#define HOLE 0], [#define FRINGE -1]. *)
Definition NORMAL : Z := 1.
Definition HOLE : Z := 0.
Definition FRINGE : Z := -1.

(** The codes held in [iblank] (per node), [iblankCell] (per cell) and
    [iblankFace] (per face). *)
Definition blank_codes : list Z := [NORMAL; HOLE; FRINGE].

End Geo.

(** ** funcs.cpp: shape functions *)

Module Funcs.

#[local] Open Scope Q_scope.

(** [struct point]: three coordinates. *)
Record point : Type := mkPoint { x : Q; y : Q; z : Q }.

(** A [double*] output argument: the cells reachable from the pointer,
    by offset.  A raw pointer carries no length. *)
Definition buffer : Type := nat -> Q.

(** [p[i] = v]. *)
Definition store (p : buffer) (i : nat) (v : Q) : buffer :=
  fun j => if Nat.eqb j i then v else p j.

(** A block of assignments [p[i0] = v0; p[i1] = v1; ...], in order. *)
Definition assign (ws : list (nat * Q)) (p : buffer) : buffer :=
  fold_left (fun m w => store m (fst w) (snd w)) ws p.

(** [void shape_quad(const point &in_rs, double* out_shape, int nNodes)].
    The [switch] has the cases 4 and 8 and no [default]. *)
Definition shape_quad (in_rs : point) (out_shape : buffer) (nNodes : Z) : buffer :=
  let xi := x in_rs in
  let eta := y in_rs in
  match nNodes with
  | 4%Z =>
      assign [ (0%nat, 0.25*(1-xi)*(1-eta));
               (1%nat, 0.25*(1+xi)*(1-eta));
               (2%nat, 0.25*(1+xi)*(1+eta));
               (3%nat, 0.25*(1-xi)*(1+eta)) ] out_shape
  | 8%Z =>
      assign [ (0%nat, -0.25*(1-xi)*(1-eta)*(1+eta+xi));
               (1%nat, -0.25*(1+xi)*(1-eta)*(1+eta-xi));
               (2%nat, -0.25*(1+xi)*(1+eta)*(1-eta-xi));
               (3%nat, -0.25*(1-xi)*(1+eta)*(1-eta+xi));
               (4%nat, 0.5*(1-xi)*(1+xi)*(1-eta));
               (5%nat, 0.5*(1+xi)*(1+eta)*(1-eta));
               (6%nat, 0.5*(1-xi)*(1+xi)*(1+eta));
               (7%nat, 0.5*(1-xi)*(1+eta)*(1-eta)) ] out_shape
  | _ => out_shape
  end.

(** The corner signs of the 20-node hexahedron. *)
Definition XI : list Q := [-1; 1; 1; -1; -1; 1; 1; -1].
Definition ETA : list Q := [-1; -1; 1; 1; -1; -1; 1; 1].
Definition MU : list Q := [-1; -1; -1; -1; 1; 1; 1; 1].

(** [void shape_hex(const point &in_rst, double* out_shape, int nNodes)].
    The [switch] has the cases 8 and 20 and no [default]. *)
Definition shape_hex (in_rst : point) (out_shape : buffer) (nNodes : Z) : buffer :=
  let xi := x in_rst in
  let eta := y in_rst in
  let mu := z in_rst in
  match nNodes with
  | 8%Z =>
      assign [ (0%nat, 0.125*(1-xi)*(1-eta)*(1-mu));
               (1%nat, 0.125*(1+xi)*(1-eta)*(1-mu));
               (2%nat, 0.125*(1+xi)*(1+eta)*(1-mu));
               (3%nat, 0.125*(1-xi)*(1+eta)*(1-mu));
               (4%nat, 0.125*(1-xi)*(1-eta)*(1+mu));
               (5%nat, 0.125*(1+xi)*(1-eta)*(1+mu));
               (6%nat, 0.125*(1+xi)*(1+eta)*(1+mu));
               (7%nat, 0.125*(1-xi)*(1+eta)*(1+mu)) ] out_shape
  | 20%Z =>
      (* Corner nodes: for (int i=0; i<8; i++) *)
      let corners :=
        fold_left
          (fun m i =>
             let XIi := nth i XI 0 in
             let ETAi := nth i ETA 0 in
             let MUi := nth i MU 0 in
             store m i (0.125*(1+xi*XIi)*(1+eta*ETAi)*(1+mu*MUi)
                             *(xi*XIi+eta*ETAi+mu*MUi-2)))
          (seq 0 8) out_shape in
      assign [ (* Edge nodes, xi = 0 *)
               (8%nat,  0.25*(1-xi*xi)*(1-eta)*(1-mu));
               (10%nat, 0.25*(1-xi*xi)*(1+eta)*(1-mu));
               (16%nat, 0.25*(1-xi*xi)*(1-eta)*(1+mu));
               (18%nat, 0.25*(1-xi*xi)*(1+eta)*(1+mu));
               (* Edge nodes, eta = 0 *)
               (9%nat,  0.25*(1-eta*eta)*(1+xi)*(1-mu));
               (11%nat, 0.25*(1-eta*eta)*(1-xi)*(1-mu));
               (17%nat, 0.25*(1-eta*eta)*(1+xi)*(1+mu));
               (19%nat, 0.25*(1-eta*eta)*(1-xi)*(1+mu));
               (* Edge nodes, mu = 0 *)
               (12%nat, 0.25*(1-mu*mu)*(1-xi)*(1-eta));
               (13%nat, 0.25*(1-mu*mu)*(1+xi)*(1-eta));
               (14%nat, 0.25*(1-mu*mu)*(1+xi)*(1+eta));
               (15%nat, 0.25*(1-mu*mu)*(1-xi)*(1+eta)) ] corners
  | _ => out_shape
  end.

(** [void shape_tri(const point &in_rs, double* out_shape)]. *)
Definition shape_tri (in_rs : point) (out_shape : buffer) : buffer :=
  assign [ (0%nat, x in_rs);
           (1%nat, y in_rs);
           (2%nat, 1 - x in_rs - y in_rs) ] out_shape.

(** [void shape_tet(const point &in_rs, double* out_shape)]. *)
Definition shape_tet (in_rs : point) (out_shape : buffer) : buffer :=
  assign [ (0%nat, x in_rs);
           (1%nat, y in_rs);
           (2%nat, z in_rs);
           (3%nat, 1 - x in_rs - y in_rs - z in_rs) ] out_shape.

(** *** The [vector<double>] overloads *)

(** What a call either returns or throws. *)
Inductive exn : Type := length_error.

Inductive outcome (A : Type) : Type :=
| Ok (a : A)
| Throw (e : exn).
Arguments Ok {A} a.
Arguments Throw {A} e.

(** [vector<double>::max_size()]: [PTRDIFF_MAX / sizeof(double)]. *)
Definition max_size : Z := (2 ^ 63 - 1) / 8.

(** [v.resize(n)] with an [int] argument.  The argument is converted to
    [size_t]; a size above [max_size()] throws [std::length_error];
    otherwise the vector is cut to its first [n] entries or extended by
    value-initialised ([0.0]) entries. *)
Definition resized (v : list Q) (n : nat) : list Q :=
  firstn n v ++ repeat 0 (n - length v).

Definition resize (v : list Q) (n : Z) : outcome (list Q) :=
  let sz := to_size_t n in
  if (max_size <? sz)%Z then Throw length_error
  else Ok (resized v (Z.to_nat sz)).

(** [v.data()]: the vector's storage seen through a raw pointer. *)
Definition data (v : list Q) : buffer := fun i => nth i v 0.

(** The first [n] cells behind a pointer. *)
Definition cells (p : buffer) (n : nat) : list Q := map p (seq 0 n).

(** Run a pointer routine on the storage of [v]. *)
Definition on_data (f : buffer -> buffer) (v : list Q) : list Q :=
  cells (f (data v)) (length v).

(** [void shape_quad(const point &in_rs, vector<double> &out_shape, int nNodes)]. *)
Definition shape_quad_vec (in_rs : point) (out_shape : list Q) (nNodes : Z)
  : outcome (list Q) :=
  match resize out_shape nNodes with
  | Throw e => Throw e
  | Ok v => Ok (on_data (fun p => shape_quad in_rs p nNodes) v)
  end.

(** [void shape_hex(const point &in_rst, vector<double> &out_shape, int nNodes)]. *)
Definition shape_hex_vec (in_rst : point) (out_shape : list Q) (nNodes : Z)
  : outcome (list Q) :=
  match resize out_shape nNodes with
  | Throw e => Throw e
  | Ok v => Ok (on_data (fun p => shape_hex in_rst p nNodes) v)
  end.

(** [void shape_tri(const point &in_rs, vector<double> &out_shape)]:
    [resize(3)], then the three entries are written in place. *)
Definition shape_tri_vec (in_rs : point) (out_shape : list Q) : outcome (list Q) :=
  match resize out_shape 3 with
  | Throw e => Throw e
  | Ok v =>
      Ok (<[2%nat := 1 - x in_rs - y in_rs]>
            (<[1%nat := y in_rs]> (<[0%nat := x in_rs]> v)))
  end.

(** [void shape_tet(const point &in_rs, vector<double> &out_shape)]. *)
Definition shape_tet_vec (in_rs : point) (out_shape : list Q) : outcome (list Q) :=
  match resize out_shape 4 with
  | Throw e => Throw e
  | Ok v => Ok (on_data (shape_tet in_rs) v)
  end.

(** The sum of a list of weights, and of the first [n] cells of a buffer. *)
Definition sumQ (l : list Q) : Q := fold_right Qplus 0 l.

(** Interpolation of nodal values [u] with the weights [w]:
    [sum_i w[i] * u[i]]. *)
Definition interpolate (w u : list Q) : Q :=
  sumQ (map (fun wu => fst wu * snd wu) (combine w u)).

(** The weights [w] sum to one, and so interpolate a constant nodal
    field to that constant. *)
Definition partition_of_unity (w : list Q) : Prop :=
  sumQ w == 1 /\ forall c : Q, interpolate w (repeat c (length w)) == c.

(** *** getOrder *)

(** The values of a [double], as far as [operator<] tells them apart: a
    number, one of the two infinities, or NaN.  The two zeros compare
    equal and are the one number 0 here. *)
Inductive double : Type :=
| Num (q : Q)
| PInf
| NInf
| NaN.

Definition is_NaN (a : double) : bool :=
  match a with NaN => true | _ => false end.

(** [a < b] on numbers. *)
Definition Qltb (a b : Q) : bool :=
  match a ?= b with Lt => true | _ => false end.

(** [a < b] on doubles: false as soon as one side is NaN. *)
Definition double_lt (a b : double) : bool :=
  match a, b with
  | NaN, _ => false
  | _, NaN => false
  | Num p, Num q => Qltb p q
  | Num _, PInf => true
  | Num _, NInf => false
  | PInf, _ => false
  | NInf, NInf => false
  | NInf, _ => true
  end.

(** [a <= b] on doubles: false as soon as one side is NaN. *)
Definition double_le (a b : double) : bool :=
  negb (is_NaN a) && negb (is_NaN b) && negb (double_lt b a).

(** [a == b] on doubles. *)
Definition double_eq (a b : double) : bool :=
  double_le a b && double_le b a.

(** [operator<] of [pair<double,size_t>]: first components, then second
    components when neither first component is below the other. *)
Definition pair_lt (p q : double * nat) : bool :=
  double_lt (fst p) (fst q)
  || (negb (double_lt (fst q) (fst p)) && Nat.ltb (snd p) (snd q)).

(** [std::sort(vp.begin(), vp.end())].  On a range on which [operator<]
    is a strict weak ordering the library fixes the result (a
    permutation of the input in which no element is below an earlier
    one), not the algorithm; insertion into a sorted prefix is used
    here, and [std_sort_unique] below shows that on [getOrder]'s pairs
    every algorithm meeting that contract returns the same vector.  With
    a NaN among several values [operator<] is no strict weak ordering
    and the library promises nothing; there the insertion sort stands
    for one possible run. *)
Fixpoint insert_pair (p : double * nat) (l : list (double * nat))
  : list (double * nat) :=
  match l with
  | [] => [p]
  | q :: l' => if pair_lt p q then p :: l else q :: insert_pair p l'
  end.

Definition std_sort (l : list (double * nat)) : list (double * nat) :=
  fold_right insert_pair [] l.

(** The first loop: [vp.push_back(make_pair(data[i], i))] for every [i]. *)
Definition make_pairs (data : list double) : list (double * nat) :=
  map (fun i => (nth i data (Num 0), i)) (seq 0 (length data)).

(** [vector<int> getOrder(vector<double> &data)].  The second loop
    stores each [size_t] index into a [vector<int>]. *)
Definition getOrder (data : list double) : list Z :=
  let vp := std_sort (make_pairs data) in
  map (fun p => to_int (Z.of_nat (snd p))) vp.

(** No value of the pairs [l] is NaN. *)
Definition numbers (l : list (double * nat)) : Prop :=
  forall p, In p l -> fst p <> NaN.

(** The postcondition of [std::sort]: no element is below an earlier one. *)
Definition not_above (p q : double * nat) : Prop := pair_lt q p = false.

Definition sorted (l : list (double * nat)) : Prop := StronglySorted not_above l.

(** What [std::sort] promises of a sorting routine [sort], on the ranges
    on which [operator<] is a strict weak ordering. *)
Definition sort_contract (sort : list (double * nat) -> list (double * nat))
  : Prop :=
  forall l, numbers l -> Permutation (sort l) l /\ sorted (sort l).

(** The positions that a sorting routine [sort] puts in order, before
    they are narrowed to [int]. *)
Definition positions (sort : list (double * nat) -> list (double * nat))
    (data : list double) : list nat :=
  map snd (sort (make_pairs data)).

(** A vector of [2^31 + 1] zeros. *)
Definition long_vector : list double :=
  repeat (Num 0) (Z.to_nat (2 ^ 31 + 1)).

(** [ind] lists the positions of [data] in stable ascending order: it
    is a permutation of [0 .. n-1], the values it points to do not
    decrease ([data[ind[i]] <= data[ind[j]]] for [i < j]), and of two
    equal values the one at the smaller position comes first. *)
Definition stable_ascending_order (data : list double) (ind : list Z) : Prop :=
  Permutation ind (map Z.of_nat (seq 0 (length data)))
  /\ forall (i j : nat) (a b : Z),
       (i < j)%nat -> ind !! i = Some a -> ind !! j = Some b ->
       double_le (nth (Z.to_nat a) data (Num 0)) (nth (Z.to_nat b) data (Num 0))
       = true
       /\ (double_eq (nth (Z.to_nat a) data (Num 0))
                     (nth (Z.to_nat b) data (Num 0)) = true -> (a < b)%Z).

(** *** Derivatives of the shape functions *)

(** A [matrix<double>] output argument, read and written through
    [operator()(i, j)]. *)
Definition matrix : Type := nat -> nat -> Q.

(** [m(i, j) = v]. *)
Definition store2 (m : matrix) (i j : nat) (v : Q) : matrix :=
  fun i' j' => if Nat.eqb i' i && Nat.eqb j' j then v else m i' j'.

(** A block of assignments [m(i0, j0) = v0; m(i1, j1) = v1; ...], in order. *)
Definition assign2 (ws : list (nat * nat * Q)) (m : matrix) : matrix :=
  fold_left (fun a w => store2 a (fst (fst w)) (snd (fst w)) (snd w)) ws m.

Section Derivatives.

(** [matrix<double>::setup(rows, columns)] is defined in matrix.hpp; what
    it leaves in the entries is a parameter here. *)
Variable setup : matrix -> Z -> Z -> matrix.

(** [void dshape_quad(const point &in_rs, matrix<double> &out_dshape, int nNodes)]. *)
Definition dshape_quad (in_rs : point) (out_dshape : matrix) (nNodes : Z) : matrix :=
  let xi := x in_rs in
  let eta := y in_rs in
  let out_dshape := setup out_dshape nNodes 2 in
  match nNodes with
  | 4%Z =>
      assign2 [ (0%nat, 0%nat, -0.25*(1-eta));
                (1%nat, 0%nat,  0.25*(1-eta));
                (2%nat, 0%nat,  0.25*(1+eta));
                (3%nat, 0%nat, -0.25*(1+eta));
                (0%nat, 1%nat, -0.25*(1-xi));
                (1%nat, 1%nat, -0.25*(1+xi));
                (2%nat, 1%nat,  0.25*(1+xi));
                (3%nat, 1%nat,  0.25*(1-xi)) ] out_dshape
  | 8%Z =>
      assign2 [ (0%nat, 0%nat, -0.25*(-1+eta)*(2*xi+eta));
                (1%nat, 0%nat,  0.25*(-1+eta)*(eta - 2*xi));
                (2%nat, 0%nat,  0.25*( 1+eta)*(2*xi+eta));
                (3%nat, 0%nat, -0.25*( 1+eta)*(eta-2*xi));
                (4%nat, 0%nat,    xi*(-1+eta));
                (5%nat, 0%nat, -0.5 *( 1+eta)*(-1+eta));
                (6%nat, 0%nat,   -xi*( 1+eta));
                (7%nat, 0%nat,  0.5 *( 1+eta)*(-1+eta));
                (0%nat, 1%nat, -0.25*(-1+xi)*(2*eta+xi));
                (1%nat, 1%nat,  0.25*( 1+xi)*(2*eta - xi));
                (2%nat, 1%nat,  0.25*( 1+xi)*(2*eta+xi));
                (3%nat, 1%nat, -0.25*(-1+xi)*(2*eta-xi));
                (4%nat, 1%nat,  0.5 *( 1+xi)*(-1+xi));
                (5%nat, 1%nat,  -eta*( 1+xi));
                (6%nat, 1%nat, -0.5 *( 1+xi)*(-1+xi));
                (7%nat, 1%nat,   eta*(-1+xi)) ] out_dshape
  | _ => out_dshape
  end.

(** [void dshape_hex(const point &in_rst, matrix<double> &out_dshape, int nNodes)]. *)
Definition dshape_hex (in_rst : point) (out_dshape : matrix) (nNodes : Z) : matrix :=
  let xi := x in_rst in
  let eta := y in_rst in
  let mu := z in_rst in
  let out_dshape := setup out_dshape nNodes 3 in
  match nNodes with
  | 8%Z =>
      assign2 [ (0%nat, 0%nat, -0.125*(1-eta)*(1-mu));
                (1%nat, 0%nat,  0.125*(1-eta)*(1-mu));
                (2%nat, 0%nat,  0.125*(1+eta)*(1-mu));
                (3%nat, 0%nat, -0.125*(1+eta)*(1-mu));
                (4%nat, 0%nat, -0.125*(1-eta)*(1+mu));
                (5%nat, 0%nat,  0.125*(1-eta)*(1+mu));
                (6%nat, 0%nat,  0.125*(1+eta)*(1+mu));
                (7%nat, 0%nat, -0.125*(1+eta)*(1+mu));
                (0%nat, 1%nat, -0.125*(1-xi)*(1-mu));
                (1%nat, 1%nat, -0.125*(1+xi)*(1-mu));
                (2%nat, 1%nat,  0.125*(1+xi)*(1-mu));
                (3%nat, 1%nat,  0.125*(1-xi)*(1-mu));
                (4%nat, 1%nat, -0.125*(1-xi)*(1+mu));
                (5%nat, 1%nat, -0.125*(1+xi)*(1+mu));
                (6%nat, 1%nat,  0.125*(1+xi)*(1+mu));
                (7%nat, 1%nat,  0.125*(1-xi)*(1+mu));
                (0%nat, 2%nat, -0.125*(1-xi)*(1-eta));
                (1%nat, 2%nat, -0.125*(1+xi)*(1-eta));
                (2%nat, 2%nat, -0.125*(1+xi)*(1+eta));
                (3%nat, 2%nat, -0.125*(1-xi)*(1+eta));
                (4%nat, 2%nat,  0.125*(1-xi)*(1-eta));
                (5%nat, 2%nat,  0.125*(1+xi)*(1-eta));
                (6%nat, 2%nat,  0.125*(1+xi)*(1+eta));
                (7%nat, 2%nat,  0.125*(1-xi)*(1+eta)) ] out_dshape
  | 20%Z =>
      (* Corner nodes: for (int i=0; i<8; i++) *)
      let corners :=
        fold_left
          (fun m i =>
             let XIi := nth i XI 0 in
             let ETAi := nth i ETA 0 in
             let MUi := nth i MU 0 in
             assign2
               [ (i, 0%nat, 0.125*XIi *(1+eta*ETAi)*(1 + mu*MUi)*(2*xi*XIi +   eta*ETAi +   mu*MUi-1));
                 (i, 1%nat, 0.125*ETAi*(1 + xi*XIi)*(1 + mu*MUi)*(  xi*XIi + 2*eta*ETAi +   mu*MUi-1));
                 (i, 2%nat, 0.125*MUi *(1 + xi*XIi)*(1+eta*ETAi)*(  xi*XIi +   eta*ETAi + 2*mu*MUi-1)) ]
               m)
          (seq 0 8) out_dshape in
      assign2
        [ (* Edge nodes, xi = 0 *)
          (8%nat,  0%nat, -0.5*xi*(1-eta)*(1-mu));  (8%nat,  1%nat, -0.25*(1-xi*xi)*(1-mu));  (8%nat,  2%nat, -0.25*(1-xi*xi)*(1-eta));
          (10%nat, 0%nat, -0.5*xi*(1+eta)*(1-mu));  (10%nat, 1%nat,  0.25*(1-xi*xi)*(1-mu));  (10%nat, 2%nat, -0.25*(1-xi*xi)*(1+eta));
          (16%nat, 0%nat, -0.5*xi*(1-eta)*(1+mu));  (16%nat, 1%nat, -0.25*(1-xi*xi)*(1+mu));  (16%nat, 2%nat,  0.25*(1-xi*xi)*(1-eta));
          (18%nat, 0%nat, -0.5*xi*(1+eta)*(1+mu));  (18%nat, 1%nat,  0.25*(1-xi*xi)*(1+mu));  (18%nat, 2%nat,  0.25*(1-xi*xi)*(1+eta));
          (* Edge nodes, eta = 0 *)
          (9%nat,  1%nat, -0.5*eta*(1+xi)*(1-mu));  (9%nat,  0%nat,  0.25*(1-eta*eta)*(1-mu));  (9%nat,  2%nat, -0.25*(1-eta*eta)*(1+xi));
          (11%nat, 1%nat, -0.5*eta*(1-xi)*(1-mu));  (11%nat, 0%nat, -0.25*(1-eta*eta)*(1-mu));  (11%nat, 2%nat, -0.25*(1-eta*eta)*(1-xi));
          (17%nat, 1%nat, -0.5*eta*(1+xi)*(1+mu));  (17%nat, 0%nat,  0.25*(1-eta*eta)*(1+mu));  (17%nat, 2%nat,  0.25*(1-eta*eta)*(1+xi));
          (19%nat, 1%nat, -0.5*eta*(1-xi)*(1+mu));  (19%nat, 0%nat, -0.25*(1-eta*eta)*(1+mu));  (19%nat, 2%nat,  0.25*(1-eta*eta)*(1-xi));
          (* Edge nodes, mu = 0 *)
          (12%nat, 2%nat, -0.5*mu*(1-xi)*(1-eta));  (12%nat, 0%nat, -0.25*(1-mu*mu)*(1-eta));  (12%nat, 1%nat, -0.25*(1-mu*mu)*(1-xi));
          (13%nat, 2%nat, -0.5*mu*(1+xi)*(1-eta));  (13%nat, 0%nat,  0.25*(1-mu*mu)*(1-eta));  (13%nat, 1%nat, -0.25*(1-mu*mu)*(1+xi));
          (14%nat, 2%nat, -0.5*mu*(1+xi)*(1+eta));  (14%nat, 0%nat,  0.25*(1-mu*mu)*(1+eta));  (14%nat, 1%nat,  0.25*(1-mu*mu)*(1+xi));
          (15%nat, 2%nat, -0.5*mu*(1-xi)*(1+eta));  (15%nat, 0%nat, -0.25*(1-mu*mu)*(1+eta));  (15%nat, 1%nat,  0.25*(1-mu*mu)*(1-xi)) ]
        corners
  | _ => out_dshape
  end.

(** [void dshape_tri(point &, matrix<double> &out_dshape)]. *)
Definition dshape_tri (in_rs : point) (out_dshape : matrix) : matrix :=
  let out_dshape := setup out_dshape 3 2 in
  assign2 [ (0%nat, 0%nat,  1);
            (1%nat, 0%nat,  0);
            (2%nat, 0%nat, -1);
            (0%nat, 1%nat,  0);
            (1%nat, 1%nat,  1);
            (2%nat, 1%nat, -1) ] out_dshape.

(** [void dshape_tet(point &, matrix<double> &out_dshape)]. *)
Definition dshape_tet (in_rs : point) (out_dshape : matrix) : matrix :=
  let out_dshape := setup out_dshape 4 3 in
  assign2 [ (0%nat, 0%nat,  1);
            (1%nat, 0%nat,  0);
            (2%nat, 0%nat,  0);
            (3%nat, 0%nat, -1);
            (0%nat, 1%nat,  0);
            (1%nat, 1%nat,  1);
            (2%nat, 1%nat,  0);
            (3%nat, 1%nat, -1);
            (0%nat, 2%nat,  0);
            (1%nat, 2%nat,  0);
            (2%nat, 2%nat,  1);
            (3%nat, 2%nat, -1) ] out_dshape.

End Derivatives.

(** The point [rs] moved by [h] along the reference direction [d]. *)
Definition shift (rs : point) (d : nat) (h : Q) : point :=
  match d with
  | 0%nat => mkPoint (x rs + h) (y rs) (z rs)
  | 1%nat => mkPoint (x rs) (y rs + h) (z rs)
  | _ => mkPoint (x rs) (y rs) (z rs + h)
  end.

(** [D] holds the partial derivatives of the [nNodes] weights [N] along
    the first [nDims] reference directions: the central difference of
    [N] over any step [h] is [2 h D], at every point. *)
Definition is_gradient (nNodes nDims : nat) (N : point -> buffer)
    (D : point -> matrix) : Prop :=
  forall (rs : point) (h : Q) (i d : nat),
    (i < nNodes)%nat -> (d < nDims)%nat ->
    N (shift rs d h) i - N (shift rs d (- h)) i == 2 * h * D rs i d.

(** The corner [j] of the reference hexahedron, from the sign tables of
    [shape_hex]. *)
Definition corner (j : nat) : point :=
  mkPoint (nth j XI 0) (nth j ETA 0) (nth j MU 0).

(** Every weight of [w] lies between 0 and 1. *)
Definition convex_weights (w : list Q) : Prop :=
  forall a : Q, In a w -> 0 <= a <= 1.

(** A pair of [getOrder] with its value changed by [f]. *)
Definition on_value (f : double -> double) (p : double * nat) : double * nat :=
  (f (fst p), snd p).

(** The values of [data] read in the order [ind]: [data[ind[0]]],
    [data[ind[1]]], ... *)
Definition reorder (data : list double) (ind : list Z) : list double :=
  map (fun a => nth (Z.to_nat a) data (Num 0)) ind.

(** The values of [l] do not decrease: [l[i] <= l[j]] for [i < j]. *)
Definition ascending (l : list double) : Prop :=
  StronglySorted (fun a b => double_le a b = true) l.

(** The map [v -> 2 v + 1] on doubles, taken exactly. *)
Definition twice_plus_one (a : double) : double :=
  match a with
  | Num v => Num (2 * v + 1)
  | _ => a
  end.

(** The column [d] of the first [nNodes] rows of a matrix. *)
Definition column (m : matrix) (nNodes d : nat) : list Q :=
  map (fun i => m i d) (seq 0 nNodes).

End Funcs.

(** ** solver.cpp: the time-step reduction *)

Module Solver.

(** The values of the local variable [dt]: a time step, or the literal
    [INFINITY] it is initialised with. *)
Inductive time_step : Type :=
| Finite (q : Q)
| INFINITY.

(** [a < b]. *)
Definition lt (a b : time_step) : bool :=
  match a, b with
  | Finite p, Finite q => Funcs.Qltb p q
  | Finite _, INFINITY => true
  | INFINITY, _ => false
  end.

(** [a <= b]. *)
Definition le (a b : time_step) : Prop := lt b a = false.

(** [std::min(a, b)]: [(b < a) ? b : a]. *)
Definition min (a b : time_step) : time_step := if lt b a then b else a.

(** [input]: the field of the simulation parameters that [calcDt] writes. *)
Record input : Type := mkInput { dt : time_step }.

(** The two builds of the file: with MPI, or with [_NO_MPI] defined. *)
Inductive build : Type := WithMPI | NoMPI.

Section CalcDt.

(** [class ele] and [double ele::calcDt()] are defined in ele.cpp. *)
Variable ele : Type.
Variable ele_calcDt : ele -> Q.

(** One thread of the parallel loop: its private copy of [dt] starts at
    the identity of [min] and takes [dt = min(dt, eles[i].calcDt())] for
    every iteration the thread is given. *)
Definition thread_loop (iterations : list ele) : time_step :=
  fold_left (fun dt e => min dt (Finite (ele_calcDt e))) iterations INFINITY.

(** [#pragma omp parallel for reduction(min:dt)]: the iterations are
    dealt to the threads by [schedule] (one list per thread); when the
    loop ends the private copies are combined into the original variable
    with [min]. *)
Definition omp_for_reduction_min (dt0 : time_step) (schedule : list (list ele))
  : time_step :=
  fold_left min (map thread_loop schedule) dt0.

(** The loop of [calcDt] on one process: [double dt = INFINITY;] followed
    by the reduction loop. *)
Definition local_dt (schedule : list (list ele)) : time_step :=
  omp_for_reduction_min INFINITY schedule.

(** [MPI_Allreduce(&dtTmp, &dt, 1, MPI_DOUBLE, MPI_MIN, MPI_COMM_WORLD)]:
    every process receives the [min] of all contributions, given here in
    rank order. *)
Definition MPI_Allreduce_MIN (contributions : list time_step) : time_step :=
  match contributions with
  | [] => INFINITY
  | c :: cs => fold_left min cs c
  end.

(** [void solver::calcDt(void)] on the process [rank] of [world] (for
    each process, the schedule of its element loop). *)
Definition calcDt (b : build) (world : list (list (list ele))) (rank : nat)
    (params : input) : input :=
  let dt := local_dt (nth rank world []) in
  let dt :=
    match b with
    | NoMPI => dt
    | WithMPI => MPI_Allreduce_MIN (map local_dt world)
    end in
  mkInput dt.

End CalcDt.

(** [m] is the least of the values [l] of [dt]. *)
Definition is_least (m : time_step) (l : list time_step) : Prop :=
  In m l /\ forall v, In v l -> le m v.

(** [m] is a time step, the minimum of the time steps [l]. *)
Definition is_minimum (m : time_step) (l : list Q) : Prop :=
  exists q : Q, m = Finite q /\ In q l /\ forall v, In v l -> (q <= v)%Q.

End Solver.

(** ** solver.cpp: time advancement *)

Module TimeAdvance.

#[local] Open Scope Q_scope.

(** The members of [solver] that hold the Runge-Kutta scheme. *)
Record tables : Type := mkTables {
  nRKSteps : Z;
  RKa : list Q;
  RKb : list Q
}.

Inductive fatal : Type := Time_stepping_type_not_supported.

Inductive setup_outcome : Type :=
| Ready (t : tables)
| FatalError (e : fatal).

(** [1./6.] and [1./3.].  Neither quotient is a binary fraction: the
    division rounds it to the nearest [double], which is
    [6004799503160661 / 2^55] for one sixth and [6004799503160661 / 2^54]
    for one third ([RK4_weights_nearest] below).  [.5] and [1.] are
    exact. *)
Definition one_sixth : Q := 6004799503160661 # 36028797018963968.
Definition one_third : Q := 6004799503160661 # 18014398509481984.

(** [c] is the [double] nearest to [x]: a significand [m] of 53 bits at
    the binary exponent [e], closer to [x] than half a unit in the last
    place. *)
Definition nearest_double (x c : Q) : Prop :=
  exists m e : Z,
    (2 ^ 52 <= m < 2 ^ 53)%Z /\ c == inject_Z m * 2 ^ e
    /\ Qabs (x - c) < 2 ^ (e - 1).

(** The [switch (params->timeType)] of [solver::setup]. *)
Definition setup_time_advancement (timeType : Z) (t : tables) : setup_outcome :=
  match timeType with
  | 0%Z => Ready (mkTables 1 (RKa t) [1])
  | 4%Z => Ready (mkTables 4 [0.5; 0.5; 1]
                    [one_sixth; one_third; one_third; one_sixth])
  | _ => FatalError Time_stepping_type_not_supported
  end.

(** The tables hold every entry that [solver::update] reads for a scheme
    of [nRKSteps] stages: [RKa[0 .. nRKSteps-2]] and
    [RKb[0 .. nRKSteps-1]]. *)
Definition well_formed (t : tables) : Prop :=
  (1 <= nRKSteps t)%Z
  /\ (nRKSteps t - 1 <= Z.of_nat (length (RKa t)))%Z
  /\ (nRKSteps t <= Z.of_nat (length (RKb t)))%Z.

(** The fields of [input] that [solver::update] reads and writes. *)
Record params : Type := mkParams {
  time : Q;
  rkTime : Q;
  dt : Q;
  dtType : Z
}.

Definition set_rkTime (p : params) (v : Q) : params :=
  mkParams (time p) v (dt p) (dtType p).

Definition set_dt (p : params) (v : Q) : params :=
  mkParams (time p) (rkTime p) v (dtType p).

Definition set_time (p : params) (v : Q) : params :=
  mkParams v (rkTime p) (dt p) (dtType p).

(** The calls that [solver::update] makes, in order.  [moveMesh] is
    recorded with the stage time [params->rkTime] it finds, and the two
    time-step routines with the coefficient they hand to the elements. *)
Inductive call : Type :=
| CopyUspts_U0
| MoveMesh (step : Z) (at_rkTime : Q)
| CalcResidual (step : Z)
| CalcDt
| TimeStepA (step : Z) (a : Q)
| CopyU0_Uspts
| TimeStepB (step : Z) (b : Q).

(** The values [0, 1, ..., n-1] of a loop counter [step < n]. *)
Definition zrange (n : Z) : list Z := map Z.of_nat (seq 0 (Z.to_nat n)).

(** One pass of the loop over the intermediate stages of
    [solver::update].  [new_dt] is the time step that [calcDt] assigns
    when it is called. *)
Definition stage (t : tables) (new_dt : Q) (acc : params * list call) (step : Z)
  : params * list call :=
  let p := fst acc in
  let tr := snd acc in
  let p :=
    if (step =? 0)%Z then set_rkTime p (time p)
    else set_rkTime p (time p + nth (Z.to_nat (step - 1)) (RKa t) 0 * dt p) in
  let tr := tr ++ [MoveMesh step (rkTime p); CalcResidual step] in
  let ptr :=
    if (step =? 0)%Z && (dtType p =? 1)%Z
    then (set_dt p new_dt, tr ++ [CalcDt])
    else (p, tr) in
  (fst ptr, snd ptr ++ [TimeStepA step (nth (Z.to_nat step) (RKa t) 0)]).

(** [void solver::update(void)]. *)
Definition update (t : tables) (new_dt : Q) (p : params) : params * list call :=
  let n := nRKSteps t in
  let tr := if (1 <? n)%Z then [CopyUspts_U0] else [] in
  let ptr := fold_left (stage t new_dt) (zrange (n - 1)) (p, tr) in
  let p := fst ptr in
  let tr := snd ptr in
  let ptr :=
    if (n =? 1)%Z then
      let p := set_rkTime p (time p) in
      if (dtType p =? 1)%Z then (set_dt p new_dt, tr ++ [CalcDt]) else (p, tr)
    else (set_rkTime p (time p + dt p), tr) in
  let p := fst ptr in
  let tr := snd ptr in
  let tr := tr ++ [MoveMesh (n - 1) (rkTime p); CalcResidual (n - 1)] in
  let tr := if (1 <? n)%Z then tr ++ [CopyU0_Uspts] else tr in
  let tr :=
    tr ++ map (fun step => TimeStepB step (nth (Z.to_nat step) (RKb t) 0))
              (zrange n) in
  (set_time p (time p + dt p), tr).

(** The calls of the passes [ks] of the stage loop after the first one,
    from the parameters [p] that the first pass leaves. *)
Definition later_stages (t : tables) (p : params) (ks : list Z) : list call :=
  flat_map (fun k =>
              [ MoveMesh k (time p + nth (Z.to_nat (k - 1)) (RKa t) 0 * dt p);
                CalcResidual k;
                TimeStepA k (nth (Z.to_nat k) (RKa t) 0) ]) ks.

(** How often [calcDt] is called. *)
Definition calcDt_calls (tr : list call) : nat :=
  length (flat_map (fun c => match c with CalcDt => [c] | _ => [] end) tr).

(** The calls other than [calcDt], in order. *)
Definition without_calcDt (tr : list call) : list call :=
  flat_map (fun c => match c with CalcDt => [] | _ => [c] end) tr.

(** The time step in force once [update] has had its chance to call
    [calcDt]. *)
Definition dt_in_force (new_dt : Q) (p : params) : Q :=
  if (dtType p =? 1)%Z then new_dt else dt p.

(** The stage time of stage [k] of a scheme of [nRKSteps] stages. *)
Definition stage_time (t : tables) (new_dt : Q) (p : params) (k : Z) : Q :=
  if (k =? 0)%Z then time p
  else if (k =? nRKSteps t - 1)%Z then time p + dt_in_force new_dt p
  else time p + nth (Z.to_nat (k - 1)) (RKa t) 0 * dt_in_force new_dt p.

(** The calls of stage [k], [calcDt] apart: the mesh is moved at the
    stage time, the residual computed and, in every stage but the last,
    the solution advanced to the next stage with [RKa[k]]. *)
Definition stage_calls (t : tables) (new_dt : Q) (p : params) (k : Z)
  : list call :=
  [MoveMesh k (stage_time t new_dt p k); CalcResidual k]
  ++ (if (k <? nRKSteps t - 1)%Z
      then [TimeStepA k (nth (Z.to_nat k) (RKa t) 0)] else []).

(** *** computeWallForce *)

(** The inner loop [force[dim] += fTmp[dim]] over [dim < nDims]. *)
Definition add_force (nDims : nat) (force fTmp : list Q) : list Q :=
  fold_left (fun force dim => <[dim := nth dim force 0 + nth dim fTmp 0]> force)
            (seq 0 nDims) force.

(** [vector<double> solver::computeWallForce(void)].  [faces] holds what
    [faces[i]->computeWallForce()] returns for each face (face.cpp); the
    constructor [vector<double> force(params->nDims)] throws on a size
    above [max_size()]. *)
Definition computeWallForce (nDims : Z) (faces : list (list Q))
  : Funcs.outcome (list Q) :=
  let sz := to_size_t nDims in
  if (Funcs.max_size <? sz)%Z then Funcs.Throw Funcs.length_error
  else Funcs.Ok (fold_left (add_force (Z.to_nat sz)) faces
                           (repeat 0 (Z.to_nat sz))).

(** The sum [((0 + v0) + v1) + ...] of component [d] over the faces. *)
Definition component_sum (faces : list (list Q)) (d : nat) : Q :=
  fold_left Qplus (map (fun f => nth d f 0) faces) 0.

(** *** initializeSolution *)

Section InitializeSolution.

(** [class ele], [ele::calcWaveSpFpts()] and [ele::calcDt()] are defined
    in ele.cpp. *)
Variable ele : Type.
Variable ele_calcWaveSpFpts : ele -> ele.
Variable ele_calcDt : ele -> Q.

(** One thread of the reduction loop of [initializeSolution]:
    [eles[i].calcWaveSpFpts(); dt = std::min(dt, eles[i].calcDt());]. *)
Definition init_thread_loop (iterations : list ele) : Solver.time_step :=
  fold_left
    (fun dt e => Solver.min dt (Solver.Finite (ele_calcDt (ele_calcWaveSpFpts e))))
    iterations Solver.INFINITY.

(** The part of [void solver::initializeSolution()] that sets
    [params->dt], on the process [rank] of [world]. *)
Definition initializeSolution (b : Solver.build) (dtType : Z)
    (world : list (list (list ele))) (rank : nat) (params : Solver.input)
  : Solver.input :=
  if (dtType =? 1)%Z then
    let local := fun schedule =>
      fold_left Solver.min (map init_thread_loop schedule) Solver.INFINITY in
    let dt := local (nth rank world []) in
    let dt :=
      match b with
      | Solver.NoMPI => dt
      | Solver.WithMPI => Solver.MPI_Allreduce_MIN (map local world)
      end in
    Solver.mkInput dt
  else params.

End InitializeSolution.

End TimeAdvance.

(** ** overComm.hpp: the exchange channel

    The header declares the exchange record and the member functions
    [matchOversetPoints], [exchangeOversetData] and [gatherData]; their
    bodies (overComm.cpp) are not among the sources.  The operations
    below follow the specification, sections 3, 4.3 to 4.5 and 7, with
    one process per grid block (the merge over the ranks of one grid is
    [gatherData]). *)

Module OverComm.

(** *** TypedGather *)

Section TypedGather.

Context {T : Type}.

(** Modelled from the spec: what one rank hands to [gatherData], the
    first [nPieces * stride] entries behind its [values] pointer. *)
Definition block (stride : nat) (local : nat * list T) : list T :=
  take (fst local * stride) (snd local).

(** Modelled from the spec: the body of the template
    [overComm::gatherData], declared in overComm.hpp.  Section 4.5:
    [gather(nLocal, stride, localValues, intraGridScope) ->
    (perRankCounts, mergedValues)], a variable-length all-gather followed
    by a merge.  [locals] holds, by rank of the scope, the [nPieces] and
    the [values] of the call on that rank. *)
Definition gatherData (stride : nat) (locals : list (nat * list T))
  : list nat * list T :=
  (map fst locals, concat (map (block stride) locals)).


End TypedGather.

(** *** The exchange record *)

(** The members of [class overComm] (and [struct dataExchange]) that the
    plan and the exchange use, as overComm.hpp declares them. *)
Record grid : Type := mkGrid {
  nOverPts : nat;                (* receptor points on this grid *)
  foundPts : list (list nat);    (* per grid: its receptor points found here *)
  nPtsRecv : list nat;           (* points incoming from each grid *)
  nPtsSend : list nat;           (* points outgoing to each grid *)
  recvPts : list (list nat);     (* point IDs received from each grid *)
  U_in : list (list Q);          (* received data, one row per receptor point *)
  (** Modelled from the spec: section 7 (b), the per-step orphan report;
      overComm.hpp declares no member for it. *)
  orphanPts : list nat;
  (** Modelled from the spec: sections 3 and 4.4, whether the plan was
      refreshed after the last reconnection event; overComm.hpp declares
      no member for it. *)
  planFresh : bool
}.

(** A grid with no points, read where a grid index is out of range. *)
Definition no_grid : grid := mkGrid 0 [] [] [] [] [] [] false.

(** Modelled from the spec: the error kinds of section 7 that this
    layer raises itself. *)
Inductive error : Type := StalePlan.

Inductive result (A : Type) : Type :=
| Done (a : A)
| Fatal (e : error).
Arguments Done {A} a.
Arguments Fatal {A} e.

(** Modelled from the spec: the all-to-all step over the inter-grid
    scope (overComm.cpp).  Grid [X] receives from every grid [A] the
    item that [A] addressed to [X]. *)
Definition alltoall {T : Type} (d : T) (sends : list (list T)) : list (list T) :=
  map (fun X => map (fun row => nth X row d) sends) (seq 0 (length sends)).

(** Modelled from the spec: the search of [overComm::matchOversetPoints]
    (section 4.3).  The point-in-element test is an external primitive:
    [donor A g p] says that grid [A] owns an element that contains the
    receptor point [p] of grid [g].  A grid searches the points of
    every other grid. *)
Definition matchOversetPoints (donor : nat -> nat -> nat -> bool) (w : list grid)
    (A : nat) : list (list nat) :=
  map (fun g =>
         if Nat.eqb g A then []
         else filter (fun p => donor A g p = true)
                     (seq 0 (nOverPts (nth g w no_grid))))
      (seq 0 (length w)).

(** Modelled from the spec: a reconnection event (sections 2 and 3).
    The donor search replaces the found lists of every grid, and the
    plan derived from the previous lists is no longer valid. *)
Definition reconnect (donor : nat -> nat -> nat -> bool) (w : list grid)
  : list grid :=
  imap (fun A g =>
          mkGrid (nOverPts g) (matchOversetPoints donor w A)
                 (nPtsRecv g) (nPtsSend g) (recvPts g) (U_in g)
                 (orphanPts g) false) w.

(** Modelled from the spec: the receptor points of a grid that no grid
    reported (section 4.3, "found by no grid"). *)
Definition unmatched (n : nat) (received : list (list nat)) : list nat :=
  filter (fun p => p ∉ concat received) (seq 0 n).

(** Modelled from the spec: [refreshPlan()] (section 4.4).  The found
    counts and ID lists are exchanged over the inter-grid scope; the
    points nobody reported are recorded as orphans. *)
Definition refreshPlan (w : list grid) : list grid :=
  let sendCounts := map (fun g => map length (foundPts g)) w in
  let recvCounts := alltoall 0%nat sendCounts in
  let recvIds := alltoall [] (map foundPts w) in
  imap (fun X g =>
          let ids := nth X recvIds [] in
          mkGrid (nOverPts g) (foundPts g)
                 (nth X recvCounts []) (nth X sendCounts []) ids (U_in g)
                 (unmatched (nOverPts g) ids) true) w.

(** Modelled from the spec: unpacking what one grid sent (section 4.4):
    the [k]-th row goes to the receptor point [ids[k]]. *)
Definition unpack_from (rows : nat -> list Q) (ids : list nat)
    (U : list (list Q)) : list (list Q) :=
  fold_left (fun U kp => <[snd kp := rows (fst kp)]> U)
            (zip (seq 0 (length ids)) ids) U.

(** Modelled from the spec: unpacking on grid [X] what every grid sent.
    [U_out A X k] is the row that grid [A] interpolated (an external
    capability of the solver's operators) for the [k]-th point it found
    for grid [X]. *)
Definition unpack (U_out : nat -> nat -> nat -> list Q) (X : nat) (g : grid)
  : list (list Q) :=
  fold_left (fun U Aids => unpack_from (U_out (fst Aids) X) (snd Aids) U)
            (zip (seq 0 (length (recvPts g))) (recvPts g)) (U_in g).

(** Modelled from the spec: [exchange()], the body of
    [overComm::exchangeOversetData] (sections 4.4 and 7 (c)).  A plan
    that was not refreshed after the last reconnection event is
    rejected before anything is packed or sent. *)
Definition exchangeOversetData (U_out : nat -> nat -> nat -> list Q)
    (w : list grid) : result (list grid) :=
  if forallb planFresh w then
    Done (imap (fun X g =>
                  mkGrid (nOverPts g) (foundPts g) (nPtsRecv g) (nPtsSend g)
                         (recvPts g) (unpack U_out X g) (orphanPts g)
                         (planFresh g)) w)
  else Fatal StalePlan.

(** There are grids, and none of them holds a refreshed plan. *)
Definition stale (w : list grid) : Prop :=
  w <> [] /\ forall g, In g w -> planFresh g = false.

(** The calls the solver makes. *)
Inductive call : Type :=
| Reconnect (donor : nat -> nat -> nat -> bool)
| RefreshPlan
| Exchange (U_out : nat -> nat -> nat -> list Q).

Definition step (w : list grid) (c : call) : result (list grid) :=
  match c with
  | Reconnect donor => Done (reconnect donor w)
  | RefreshPlan => Done (refreshPlan w)
  | Exchange U_out => exchangeOversetData U_out w
  end.

(** A run of calls; a fatal error ends the run. *)
Fixpoint run (w : list grid) (cs : list call) : result (list grid) :=
  match cs with
  | [] => Done w
  | c :: cs' =>
      match step w c with
      | Done w' => run w' cs'
      | Fatal e => Fatal e
      end
  end.

(** *** A two-grid example

    Grid 0 has three receptor points and grid 1 has two.  Grid 1 owns
    the points 0 and 2 of grid 0, grid 0 owns the point 1 of grid 1;
    the point 1 of grid 0 and the point 0 of grid 1 have no donor. *)

Definition two_grids : list grid :=
  [ mkGrid 3 [] [] [] [] [[1]; [2]; [3]]%Q [] false;
    mkGrid 2 [] [] [] [] [[4]; [5]]%Q [] false ].

Definition two_grids_donor (A g p : nat) : bool :=
  match A, g with
  | 1%nat, 0%nat => Nat.eqb p 0 || Nat.eqb p 2
  | 0%nat, 1%nat => Nat.eqb p 1
  | _, _ => false
  end.

(** Every donor interpolates the value 9 for the first point it found
    and 8 for the others. *)
Definition two_grids_U_out (A X k : nat) : list Q :=
  match k with
  | 0%nat => [9]%Q
  | _ => [8]%Q
  end.

End OverComm.

(** * Properties *)

(** ** Blanking codes *)

(** C6. The blanking classification of nodes, cells and faces has exactly
    the three code values NORMAL = 1, HOLE = 0 and FRINGE = -1: the three
    constants have these values, and the values are pairwise distinct. *)
Theorem blanking_codes :
  Geo.NORMAL = 1 /\ Geo.HOLE = 0 /\ Geo.FRINGE = -1
  /\ Geo.blank_codes = [1; 0; -1]
  /\ length Geo.blank_codes = 3%nat
  /\ NoDup Geo.blank_codes.
Proof.
  repeat split.
  unfold Geo.blank_codes, Geo.NORMAL, Geo.HOLE, Geo.FRINGE.
  repeat constructor; rewrite ?list_elem_of_In; simpl; lia.
Qed.

(** ** Shape functions *)

Section ShapeFacts.

Import Funcs.
#[local] Open Scope Q_scope.

Lemma sumQ_scale (c : Q) (w : list Q) :
  interpolate w (repeat c (length w)) == sumQ w * c.
Proof.
  unfold interpolate. induction w as [|a w IH]; simpl.
  - ring.
  - rewrite IH. ring.
Qed.

(** Weights that sum to one interpolate constants exactly. *)
Lemma sum_one_partition (w : list Q) : sumQ w == 1 -> partition_of_unity w.
Proof.
  intros Hs. split; [exact Hs|].
  intros c. rewrite sumQ_scale, Hs. ring.
Qed.

(** Unfolds a shape routine applied to symbolic coordinates down to the
    polynomials it stores, leaving the rational arithmetic untouched. *)
Ltac shape_polynomials :=
  cbv [shape_quad shape_hex shape_tri shape_tet assign store fold_left cells
       sumQ map seq fold_right Nat.eqb fst snd nth XI ETA MU].

Lemma shape_quad_4_unity rs p :
  partition_of_unity (cells (shape_quad rs p 4) 4).
Proof. apply sum_one_partition. shape_polynomials. ring. Qed.

Lemma shape_quad_8_unity rs p :
  partition_of_unity (cells (shape_quad rs p 8) 8).
Proof. apply sum_one_partition. shape_polynomials. ring. Qed.

Lemma shape_hex_8_unity rs p :
  partition_of_unity (cells (shape_hex rs p 8) 8).
Proof. apply sum_one_partition. shape_polynomials. ring. Qed.

Lemma shape_hex_20_unity rs p :
  partition_of_unity (cells (shape_hex rs p 20) 20).
Proof. apply sum_one_partition. shape_polynomials. ring. Qed.

Lemma shape_tri_unity rs p :
  partition_of_unity (cells (shape_tri rs p) 3).
Proof. apply sum_one_partition. shape_polynomials. ring. Qed.

Lemma shape_tet_unity rs p :
  partition_of_unity (cells (shape_tet rs p) 4).
Proof. apply sum_one_partition. shape_polynomials. ring. Qed.

(** At the centre of the quadrilateral the four weights are equal; at a
    corner or an edge midpoint of the 20-node hexahedron the weight of
    that node is 1 and the others vanish. *)
Example shape_quad_centre :
  map Qred (cells (shape_quad (mkPoint 0 0 0) (fun _ => 0) 4) 4)
  = [1 # 4; 1 # 4; 1 # 4; 1 # 4].
Proof. reflexivity. Qed.

Example shape_hex_20_corner :
  map Qred (cells (shape_hex (mkPoint 1 1 1) (fun _ => 0) 20) 20)
  = [0; 0; 0; 0; 0; 0; 1; 0; 0; 0; 0; 0; 0; 0; 0; 0; 0; 0; 0; 0].
Proof. reflexivity. Qed.

Example shape_hex_20_edge :
  map Qred (cells (shape_hex (mkPoint 0 (-1) (-1)) (fun _ => 0) 20) 20)
  = [0; 0; 0; 0; 0; 0; 0; 0; 1; 0; 0; 0; 0; 0; 0; 0; 0; 0; 0; 0].
Proof. reflexivity. Qed.

(** *** [resize] *)

Lemma to_size_t_small (n : Z) :
  (0 <= n <= INT_MAX)%Z -> to_size_t n = n.
Proof.
  unfold to_size_t, INT_MAX. intros H. apply Z.mod_small. lia.
Qed.

Lemma resize_ok (v : list Q) (n : Z) :
  (0 <= n <= INT_MAX)%Z -> resize v n = Ok (resized v (Z.to_nat n)).
Proof.
  intros H. unfold resize. rewrite (to_size_t_small n H).
  assert (Hm : (max_size <? n)%Z = false).
  { apply Z.ltb_ge. unfold INT_MAX in H.
    assert (2 ^ 31 <= max_size)%Z by (vm_compute; discriminate). lia. }
  rewrite Hm. reflexivity.
Qed.

(** A negative [int] converts to a [size_t] above [max_size()]. *)
Lemma resize_negative (v : list Q) (n : Z) :
  (INT_MIN <= n < 0)%Z -> resize v n = Throw length_error.
Proof.
  unfold INT_MIN. intros H. unfold resize, to_size_t.
  assert (Hs : (n mod 2 ^ 64 = n + 2 ^ 64)%Z).
  { symmetry. apply Z.mod_unique with (q := (-1)%Z); lia. }
  rewrite Hs.
  assert (Hm : (max_size <? n + 2 ^ 64)%Z = true).
  { apply Z.ltb_lt.
    assert (max_size < 2 ^ 64 - 2 ^ 31)%Z by (vm_compute; reflexivity). lia. }
  rewrite Hm. reflexivity.
Qed.

Lemma length_resized (v : list Q) (n : nat) : length (resized v n) = n.
Proof. unfold resized. rewrite length_app, length_firstn, repeat_length. lia. Qed.

(** Reading back the storage of a vector gives the vector. *)
Lemma cells_data (v : list Q) : cells (data v) (length v) = v.
Proof.
  unfold cells. induction v as [|a v IH]; [reflexivity|].
  simpl. f_equal.
  rewrite <- seq_shift, map_map. exact IH.
Qed.

(** *** The vector overloads on a supported node count *)

Lemma on_data_resized (f : buffer -> buffer) (v : list Q) (n : nat) :
  on_data f (resized v n) = cells (f (data (resized v n))) n.
Proof. unfold on_data. now rewrite length_resized. Qed.

Lemma shape_quad_vec_supported rs v (n : Z) :
  (0 <= n <= INT_MAX)%Z ->
  shape_quad_vec rs v n
  = Ok (cells (shape_quad rs (data (resized v (Z.to_nat n))) n) (Z.to_nat n)).
Proof.
  intros H. unfold shape_quad_vec. rewrite (resize_ok v n H).
  now rewrite on_data_resized.
Qed.

Lemma shape_hex_vec_supported rs v (n : Z) :
  (0 <= n <= INT_MAX)%Z ->
  shape_hex_vec rs v n
  = Ok (cells (shape_hex rs (data (resized v (Z.to_nat n))) n) (Z.to_nat n)).
Proof.
  intros H. unfold shape_hex_vec. rewrite (resize_ok v n H).
  now rewrite on_data_resized.
Qed.

Lemma small_count_in_range (n : Z) : (0 <= n <= 20)%Z -> (0 <= n <= INT_MAX)%Z.
Proof. unfold INT_MAX. lia. Qed.

Lemma shape_quad_vec_unity rs v (n : Z) :
  n = 4%Z \/ n = 8%Z ->
  exists w, shape_quad_vec rs v n = Ok w
            /\ length w = Z.to_nat n /\ partition_of_unity w.
Proof.
  intros Hn. eexists. split; [|split].
  - apply shape_quad_vec_supported, small_count_in_range. lia.
  - unfold cells. now rewrite length_map, length_seq.
  - destruct Hn as [-> | ->].
    + apply (shape_quad_4_unity rs).
    + apply (shape_quad_8_unity rs).
Qed.

Lemma shape_hex_vec_unity rs v (n : Z) :
  n = 8%Z \/ n = 20%Z ->
  exists w, shape_hex_vec rs v n = Ok w
            /\ length w = Z.to_nat n /\ partition_of_unity w.
Proof.
  intros Hn. eexists. split; [|split].
  - apply shape_hex_vec_supported, small_count_in_range. lia.
  - unfold cells. now rewrite length_map, length_seq.
  - destruct Hn as [-> | ->].
    + apply (shape_hex_8_unity rs).
    + apply (shape_hex_20_unity rs).
Qed.

Lemma shape_tri_vec_unity rs v :
  exists w, shape_tri_vec rs v = Ok w /\ length w = 3%nat /\ partition_of_unity w.
Proof.
  unfold shape_tri_vec. rewrite resize_ok by (apply small_count_in_range; lia).
  pose proof (length_resized v (Z.to_nat 3)) as Hl.
  destruct (resized v (Z.to_nat 3)) as [|a [|b [|c [|d r]]]]; try discriminate Hl.
  eexists. split; [reflexivity|]. split; [reflexivity|].
  apply sum_one_partition.
  change (sumQ [x rs; y rs; 1 - x rs - y rs] == 1).
  cbv [sumQ fold_right]. ring.
Qed.

Lemma shape_tet_vec_unity rs v :
  exists w, shape_tet_vec rs v = Ok w /\ length w = 4%nat /\ partition_of_unity w.
Proof.
  unfold shape_tet_vec. rewrite resize_ok by (apply small_count_in_range; lia).
  rewrite on_data_resized.
  eexists. split; [reflexivity|]. split.
  - unfold cells. now rewrite length_map, length_seq.
  - apply (shape_tet_unity rs).
Qed.

(** *** An unsupported node count *)

Lemma shape_quad_default rs p (n : Z) :
  n <> 4%Z -> n <> 8%Z -> shape_quad rs p n = p.
Proof.
  intros H4 H8. unfold shape_quad.
  repeat match goal with
         | |- context [match ?k with _ => _ end] => destruct k
         end; try reflexivity; congruence.
Qed.

Lemma shape_hex_default rs p (n : Z) :
  n <> 8%Z -> n <> 20%Z -> shape_hex rs p n = p.
Proof.
  intros H8 H20. unfold shape_hex.
  repeat match goal with
         | |- context [match ?k with _ => _ end] => destruct k
         end; try reflexivity; congruence.
Qed.

Lemma on_data_id (f : buffer -> buffer) (v : list Q) :
  (forall p, f p = p) -> on_data f v = v.
Proof. intros Hf. unfold on_data. rewrite Hf. apply cells_data. Qed.

(** A negative count never reaches the [switch]: [resize] throws. *)
Lemma shape_vec_negative rs v (n : Z) :
  (INT_MIN <= n < 0)%Z ->
  shape_quad_vec rs v n = Throw length_error
  /\ shape_hex_vec rs v n = Throw length_error.
Proof.
  intros H. unfold shape_quad_vec, shape_hex_vec.
  now rewrite (resize_negative v n H).
Qed.

(** C9. At every reference-space point the shape-function weights form a
    partition of unity: the outputs of [shape_quad] (4 or 8 nodes),
    [shape_hex] (8 or 20 nodes), [shape_tri] and [shape_tet] sum to 1 as
    a polynomial identity in the reference coordinates, and therefore
    interpolate a constant nodal field to that constant.  This holds for
    the pointer routines, whatever the buffer held before, and for the
    vector overloads, whatever the vector held before. *)
Theorem shape_functions_partition_of_unity (rs : point) :
  (forall p, partition_of_unity (cells (shape_quad rs p 4) 4))
  /\ (forall p, partition_of_unity (cells (shape_quad rs p 8) 8))
  /\ (forall p, partition_of_unity (cells (shape_hex rs p 8) 8))
  /\ (forall p, partition_of_unity (cells (shape_hex rs p 20) 20))
  /\ (forall p, partition_of_unity (cells (shape_tri rs p) 3))
  /\ (forall p, partition_of_unity (cells (shape_tet rs p) 4))
  /\ (forall v, exists w, shape_quad_vec rs v 4 = Ok w
                         /\ length w = 4%nat /\ partition_of_unity w)
  /\ (forall v, exists w, shape_quad_vec rs v 8 = Ok w
                         /\ length w = 8%nat /\ partition_of_unity w)
  /\ (forall v, exists w, shape_hex_vec rs v 8 = Ok w
                         /\ length w = 8%nat /\ partition_of_unity w)
  /\ (forall v, exists w, shape_hex_vec rs v 20 = Ok w
                         /\ length w = 20%nat /\ partition_of_unity w)
  /\ (forall v, exists w, shape_tri_vec rs v = Ok w
                         /\ length w = 3%nat /\ partition_of_unity w)
  /\ (forall v, exists w, shape_tet_vec rs v = Ok w
                         /\ length w = 4%nat /\ partition_of_unity w).
Proof.
  repeat apply conj; intros.
  - apply shape_quad_4_unity.
  - apply shape_quad_8_unity.
  - apply shape_hex_8_unity.
  - apply shape_hex_20_unity.
  - apply shape_tri_unity.
  - apply shape_tet_unity.
  - apply (shape_quad_vec_unity rs v 4). now left.
  - apply (shape_quad_vec_unity rs v 8). now right.
  - apply (shape_hex_vec_unity rs v 8). now left.
  - apply (shape_hex_vec_unity rs v 20). now right.
  - apply shape_tri_vec_unity.
  - apply shape_tet_vec_unity.
Qed.

(** C10, as amended.  When [shape_quad] is called with a node count
    other than 4 or 8, or [shape_hex] with a node count other than 8 or
    20, no shape value is written: the [switch] has no [default]
    branch.  The pointer routines return the caller's buffer as it was
    and signal no error.  The vector overloads, given a non-negative
    count, signal no error and return the vector merely resized to the
    count, new entries being 0; given a negative count, their [resize]
    throws [std::length_error] before the [switch] is reached. *)
Theorem unsupported_node_count (rs : point) (nNodes : Z) :
  (nNodes <> 4%Z -> nNodes <> 8%Z ->
     (forall p, shape_quad rs p nNodes = p)
     /\ ((0 <= nNodes <= INT_MAX)%Z ->
         forall v, shape_quad_vec rs v nNodes
                   = Ok (resized v (Z.to_nat nNodes))))
  /\ (nNodes <> 8%Z -> nNodes <> 20%Z ->
        (forall p, shape_hex rs p nNodes = p)
        /\ ((0 <= nNodes <= INT_MAX)%Z ->
            forall v, shape_hex_vec rs v nNodes
                      = Ok (resized v (Z.to_nat nNodes))))
  /\ ((INT_MIN <= nNodes < 0)%Z ->
        forall v, shape_quad_vec rs v nNodes = Throw length_error
                  /\ shape_hex_vec rs v nNodes = Throw length_error).
Proof.
  split; [|split].
  - intros Ha Hb. split.
    + intros p. now apply shape_quad_default.
    + intros Hr v. unfold shape_quad_vec. rewrite (resize_ok v nNodes Hr).
      f_equal. apply on_data_id. intros p. now apply shape_quad_default.
  - intros Ha Hb. split.
    + intros p. now apply shape_hex_default.
    + intros Hr v. unfold shape_hex_vec. rewrite (resize_ok v nNodes Hr).
      f_equal. apply on_data_id. intros p. now apply shape_hex_default.
  - intros Hneg v. now apply shape_vec_negative.
Qed.

(** A three-node call: the buffer is untouched, a five-entry vector is
    cut to three entries and a one-entry vector is padded with zeros. *)
Lemma unsupported_node_count_witness :
  shape_quad (mkPoint 0 0 0) (fun _ => 7) 3 = (fun _ => 7)
  /\ shape_quad_vec (mkPoint 0 0 0) [1; 2; 3; 4; 5] 3 = Ok [1; 2; 3]
  /\ shape_hex (mkPoint 0 0 0) (fun _ => 7) 3 = (fun _ => 7)
  /\ shape_hex_vec (mkPoint 0 0 0) [1] 3 = Ok [1; 0; 0]
  /\ shape_hex_vec (mkPoint 0 0 0) [1] (-2) = Throw length_error.
Proof.
  destruct (unsupported_node_count (mkPoint 0 0 0) 3) as (Hq & Hh & _).
  destruct (unsupported_node_count (mkPoint 0 0 0) (-2)) as (_ & _ & Hn).
  destruct Hq as [Hq1 Hq2]; [lia | lia |].
  destruct Hh as [Hh1 Hh2]; [lia | lia |].
  assert (Hr : (0 <= 3 <= INT_MAX)%Z) by (unfold INT_MAX; lia).
  assert (Hm : (INT_MIN <= -2 < 0)%Z) by (unfold INT_MIN; lia).
  split; [apply Hq1 |].
  split; [apply (Hq2 Hr [1; 2; 3; 4; 5]) |].
  split; [apply Hh1 |].
  split; [apply (Hh2 Hr [1]) |].
  apply (Hn Hm [1]).
Defined.

(** C10, as stated, fails at the node count -1: the vector overload
    signals an error instead of returning the vector resized. *)
Lemma negative_node_count_throws :
  ((-1)%Z <> 4%Z /\ (-1)%Z <> 8%Z)
  /\ shape_quad_vec (mkPoint 0 0 0) [1; 2] (-1) = Throw length_error
  /\ ~ exists w, shape_quad_vec (mkPoint 0 0 0) [1; 2] (-1) = Ok w.
Proof.
  split; [split; discriminate|].
  split; [reflexivity|].
  intros [w Hw]. discriminate Hw.
Qed.

End ShapeFacts.

(** ** getOrder *)

Section GetOrderFacts.

Import Funcs.
#[local] Open Scope Q_scope.

Lemma Qltb_true (a b : Q) : Qltb a b = true <-> a < b.
Proof.
  unfold Qltb. rewrite Qlt_alt. destruct (a ?= b); split; congruence.
Qed.

Lemma Qltb_false (a b : Q) : Qltb a b = false <-> b <= a.
Proof.
  rewrite <- not_true_iff_false, Qltb_true. split.
  - apply Qnot_lt_le.
  - apply Qle_not_lt.
Qed.

(** *** [operator<] on doubles *)

Lemma double_lt_irrefl (a : double) : double_lt a a = false.
Proof. destruct a; try reflexivity. simpl. apply Qltb_false, Qle_refl. Qed.

Lemma double_lt_trans (a b c : double) :
  double_lt a b = true -> double_lt b c = true -> double_lt a c = true.
Proof.
  destruct a as [p| | |], b as [q| | |], c as [r| | |]; simpl; try congruence.
  rewrite !Qltb_true. apply Qlt_trans.
Qed.

Lemma double_lt_asym (a b : double) :
  double_lt a b = true -> double_lt b a = false.
Proof.
  intros H. destruct (double_lt b a) eqn:H'; [|reflexivity].
  pose proof (double_lt_trans _ _ _ H H') as Hc.
  rewrite double_lt_irrefl in Hc. discriminate.
Qed.

(** A value that is not NaN lies above [a] or below [c] when [a < c]. *)
Lemma double_lt_between (a b c : double) :
  b <> NaN -> double_lt a c = true ->
  double_lt a b = true \/ double_lt b c = true.
Proof.
  destruct a as [p| | |], b as [q| | |], c as [r| | |]; simpl; intros Hb H;
    try congruence; auto.
  rewrite Qltb_true in H. rewrite !Qltb_true.
  destruct (Qlt_le_dec p q) as [Hpq | Hqp]; [now left | right].
  now apply Qle_lt_trans with p.
Qed.

Lemma double_le_true (a b : double) :
  double_le a b = true <-> a <> NaN /\ b <> NaN /\ double_lt b a = false.
Proof.
  unfold double_le. rewrite !andb_true_iff, !negb_true_iff.
  destruct a, b; simpl; intuition congruence.
Qed.

Lemma double_le_NaN_l (b : double) : double_le NaN b = false.
Proof. reflexivity. Qed.

Lemma double_le_NaN_r (a : double) : double_le a NaN = false.
Proof. destruct a; reflexivity. Qed.

(** *** [operator<] on pairs *)

Lemma pair_lt_cases (p q : double * nat) :
  pair_lt p q = true <->
  double_lt (fst p) (fst q) = true
  \/ (double_lt (fst q) (fst p) = false /\ (snd p < snd q)%nat).
Proof.
  unfold pair_lt.
  rewrite orb_true_iff, andb_true_iff, negb_true_iff, Nat.ltb_lt. reflexivity.
Qed.

Lemma pair_lt_irrefl (p : double * nat) : pair_lt p p = false.
Proof.
  apply not_true_iff_false. rewrite pair_lt_cases, double_lt_irrefl.
  intros [H | [_ H]]; [discriminate | lia].
Qed.

Lemma pair_lt_asym (p q : double * nat) :
  pair_lt p q = true -> pair_lt q p = false.
Proof.
  intros H. apply not_true_iff_false. intros H'.
  apply pair_lt_cases in H, H'.
  destruct H as [H | [H1 H2]], H' as [H' | [H1' H2']].
  - apply double_lt_asym in H. congruence.
  - congruence.
  - congruence.
  - lia.
Qed.

(** Two pairs with different indices are ordered one way or the other. *)
Lemma pair_lt_total (p q : double * nat) :
  snd p <> snd q -> pair_lt p q = true \/ pair_lt q p = true.
Proof.
  intros Hne. rewrite !pair_lt_cases.
  destruct (double_lt (fst p) (fst q)) eqn:Hpq; [now left; left|].
  destruct (double_lt (fst q) (fst p)) eqn:Hqp; [now right; left|].
  destruct (Nat.lt_total (snd p) (snd q)) as [H | [H | H]].
  - left. right. now split.
  - contradiction.
  - right. right. now split.
Qed.

(** Without NaN [operator<] is transitive. *)
Lemma pair_lt_trans (p q r : double * nat) :
  fst p <> NaN -> fst q <> NaN -> fst r <> NaN ->
  pair_lt p q = true -> pair_lt q r = true -> pair_lt p r = true.
Proof.
  intros Hp Hq Hr H1 H2. apply pair_lt_cases in H1, H2. apply pair_lt_cases.
  destruct H1 as [H1 | [H1 I1]], H2 as [H2 | [H2 I2]].
  - left. now apply double_lt_trans with (fst q).
  - left. destruct (double_lt_between _ (fst r) _ Hr H1) as [H | H];
      [exact H | congruence].
  - left. destruct (double_lt_between _ (fst p) _ Hp H2) as [H | H];
      [congruence | exact H].
  - right. split; [|lia].
    destruct (double_lt (fst r) (fst p)) eqn:H; [|reflexivity].
    destruct (double_lt_between _ (fst q) _ Hq H) as [H' | H']; congruence.
Qed.

(** Without NaN a pair below another has the smaller value, or an equal
    value and the smaller index. *)
Lemma pair_lt_value (p q : double * nat) :
  fst p <> NaN -> fst q <> NaN -> pair_lt p q = true ->
  double_lt (fst p) (fst q) = true
  \/ (double_eq (fst p) (fst q) = true /\ (snd p < snd q)%nat).
Proof.
  intros Hp Hq H. apply pair_lt_cases in H.
  destruct (double_lt (fst p) (fst q)) eqn:Hpq; [now left|].
  destruct H as [H | [H1 H2]]; [discriminate|].
  right. split; [|exact H2].
  unfold double_eq. apply andb_true_iff.
  split; apply double_le_true; auto.
Qed.

Lemma numbers_perm (l l' : list (double * nat)) :
  Permutation l l' -> numbers l -> numbers l'.
Proof.
  intros Hperm Hl p Hp. apply Hl.
  now apply (Permutation_in _ (Permutation_sym Hperm)).
Qed.

Lemma numbers_cons (p : double * nat) (l : list (double * nat)) :
  numbers (p :: l) -> fst p <> NaN /\ numbers l.
Proof.
  intros H. split; [apply H; now left|].
  intros q Hq. apply H. now right.
Qed.

(** *** Insertion sort meets the contract of [std::sort] *)

Lemma insert_pair_perm (p : double * nat) (l : list (double * nat)) :
  Permutation (insert_pair p l) (p :: l).
Proof.
  induction l as [|q l IH]; simpl; [reflexivity|].
  destruct (pair_lt p q); [reflexivity|].
  rewrite IH. apply perm_swap.
Qed.

Lemma insert_pair_sorted (p : double * nat) (l : list (double * nat)) :
  fst p <> NaN -> numbers l -> sorted l -> sorted (insert_pair p l).
Proof.
  unfold sorted. intros Hp Hl Hs.
  induction Hs as [|q l Hs IH Hq]; simpl.
  - repeat constructor.
  - apply numbers_cons in Hl as [Hqn Hl].
    destruct (pair_lt p q) eqn:Hpq.
    + constructor.
      * now constructor.
      * constructor; [now apply pair_lt_asym|].
        rewrite (Forall_forall (not_above p)). intros r Hr.
        rewrite Forall_forall in Hq. pose proof (Hq r Hr) as Hqr.
        apply list_elem_of_In in Hr.
        unfold not_above in *. apply not_true_iff_false. intros Hrp.
        rewrite (pair_lt_trans r p q (Hl r Hr) Hp Hqn Hrp Hpq) in Hqr.
        discriminate.
    + constructor; [now apply IH|].
      rewrite (Forall_forall (not_above q)). intros r Hr.
      apply list_elem_of_In in Hr.
      apply (Permutation_in _ (insert_pair_perm p l)) in Hr.
      destruct Hr as [<- | Hr]; [exact Hpq|].
      rewrite Forall_forall in Hq. apply Hq. now apply list_elem_of_In.
Qed.

Lemma std_sort_perm (l : list (double * nat)) : Permutation (std_sort l) l.
Proof.
  induction l as [|p l IH]; simpl; [reflexivity|].
  rewrite insert_pair_perm. now constructor.
Qed.

Lemma std_sort_sorted (l : list (double * nat)) :
  numbers l -> sorted (std_sort l).
Proof.
  induction l as [|p l IH]; simpl; intros Hl; [constructor|].
  apply numbers_cons in Hl as [Hp Hl].
  apply insert_pair_sorted; [exact Hp | | now apply IH].
  apply (numbers_perm l); [|exact Hl].
  symmetry. apply std_sort_perm.
Qed.

Lemma std_sort_contract : sort_contract std_sort.
Proof.
  intros l Hl. split; [apply std_sort_perm | now apply std_sort_sorted].
Qed.

(** *** The pairs that [getOrder] sorts *)

Lemma make_pairs_snd (data : list double) :
  map snd (make_pairs data) = seq 0 (length data).
Proof.
  unfold make_pairs. rewrite map_map. simpl. apply map_id.
Qed.

Lemma make_pairs_elem (data : list double) (p : double * nat) :
  In p (make_pairs data) ->
  fst p = nth (snd p) data (Num 0) /\ (snd p < length data)%nat.
Proof.
  unfold make_pairs. rewrite in_map_iff. intros (i & <- & Hi).
  apply in_seq in Hi. simpl. split; [reflexivity | lia].
Qed.

Lemma make_pairs_numbers (data : list double) :
  ~ In NaN data -> numbers (make_pairs data).
Proof.
  intros Hn p Hp Hnan. apply make_pairs_elem in Hp as [Hfst Hlt].
  apply Hn. rewrite <- Hnan, Hfst. now apply nth_In.
Qed.

Lemma make_pairs_NoDup (l : list (double * nat)) (data : list double) :
  Permutation l (make_pairs data) -> List.NoDup (map snd l).
Proof.
  intros Hperm. apply (Permutation_NoDup (l := seq 0 (length data))).
  - symmetry. rewrite <- make_pairs_snd. now apply Permutation_map.
  - apply seq_NoDup.
Qed.

(** Reading a strongly sorted list at two positions. *)
Lemma sorted_lookup (l : list (double * nat)) (i j : nat) (p q : double * nat) :
  sorted l -> (i < j)%nat -> l !! i = Some p -> l !! j = Some q ->
  not_above p q.
Proof.
  unfold sorted. intros Hs. revert i j.
  induction Hs as [|r l Hs IH Hr]; intros i j Hij Hi Hj.
  - discriminate.
  - destruct j as [|j]; [lia|]. simpl in Hj.
    destruct i as [|i]; simpl in Hi.
    + injection Hi as <-. rewrite Forall_forall in Hr.
      apply Hr. apply list_elem_of_lookup. now exists j.
    + apply (IH i j); [lia | assumption | assumption].
Qed.

(** *** Any routine that meets the contract *)

Section AnySort.

Variable sort : list (double * nat) -> list (double * nat).
Hypothesis sort_ok : sort_contract sort.

Variable data : list double.
Hypothesis data_numbers : ~ In NaN data.

Lemma positions_perm : Permutation (positions sort data) (seq 0 (length data)).
Proof using sort_ok data_numbers.
  unfold positions. rewrite <- make_pairs_snd.
  apply Permutation_map. now apply sort_ok, make_pairs_numbers.
Qed.

Lemma positions_ordered (i j a b : nat) :
  (i < j)%nat ->
  positions sort data !! i = Some a -> positions sort data !! j = Some b ->
  double_lt (nth a data (Num 0)) (nth b data (Num 0)) = true
  \/ (double_eq (nth a data (Num 0)) (nth b data (Num 0)) = true /\ (a < b)%nat).
Proof using sort_ok data_numbers.
  intros Hij Hi Hj. unfold positions in Hi, Hj.
  rewrite list_lookup_fmap in Hi, Hj.
  destruct (sort (make_pairs data) !! i) as [p|] eqn:Hp; [|discriminate].
  destruct (sort (make_pairs data) !! j) as [q|] eqn:Hq; [|discriminate].
  simpl in Hi, Hj. injection Hi as <-. injection Hj as <-.
  destruct (sort_ok (make_pairs data) (make_pairs_numbers data data_numbers))
    as [Hperm Hsorted].
  assert (Hin : forall k r, sort (make_pairs data) !! k = Some r ->
                             In r (make_pairs data)).
  { intros k r Hk. apply (Permutation_in _ Hperm).
    apply list_elem_of_In, list_elem_of_lookup. now exists k. }
  pose proof (make_pairs_numbers data data_numbers) as Hnum.
  rewrite <- (proj1 (make_pairs_elem data p (Hin i p Hp))),
    <- (proj1 (make_pairs_elem data q (Hin j q Hq))).
  assert (Hne : snd p <> snd q).
  { assert (Hnd : NoDup (map snd (sort (make_pairs data))))
      by (apply NoDup_ListNoDup; now apply (make_pairs_NoDup _ data)).
    intros Heq.
    assert (i = j); [|lia].
    apply (NoDup_lookup _ i j (snd p) Hnd);
      rewrite list_lookup_fmap.
    - now rewrite Hp.
    - rewrite Hq. simpl. now rewrite Heq. }
  pose proof (sorted_lookup _ i j p q Hsorted Hij Hp Hq) as Hna.
  unfold not_above in Hna.
  apply pair_lt_value; [now apply Hnum, (Hin i) | now apply Hnum, (Hin j) |].
  destruct (pair_lt_total p q Hne) as [H | H]; [exact H | congruence].
Qed.

End AnySort.

(** On pairs whose indices are all different the contract leaves one
    result only. *)
Lemma sorted_perm_unique (l1 l2 : list (double * nat)) :
  sorted l1 -> sorted l2 -> Permutation l1 l2 ->
  List.NoDup (map snd l1) -> l1 = l2.
Proof.
  unfold sorted. intros Hs1. revert l2.
  induction Hs1 as [|a l1 Hs1 IH Ha]; intros l2 Hs2 Hperm Hnd.
  - now apply Permutation_nil in Hperm.
  - destruct Hs2 as [|b l2 Hs2 Hb].
    + now apply Permutation_sym, Permutation_nil in Hperm.
    + assert (Hab : a = b).
      { assert (Hin_a : In a (b :: l2))
          by (apply (Permutation_in _ Hperm); now left).
        assert (Hin_b : In b (a :: l1))
          by (apply (Permutation_in _ (Permutation_sym Hperm)); now left).
        destruct Hin_a as [Heq | Hin_a]; [now symmetry|].
        destruct Hin_b as [Heq | Hin_b]; [assumption|].
        exfalso.
        rewrite Forall_forall in Ha, Hb.
        pose proof (Ha b (proj2 (list_elem_of_In _ _) Hin_b)) as H1.
        pose proof (Hb a (proj2 (list_elem_of_In _ _) Hin_a)) as H2.
        unfold not_above in H1, H2.
        assert (Hne : snd a <> snd b).
        { simpl in Hnd. apply List.NoDup_cons_iff in Hnd as [Hnotin _].
          intros Heq. apply Hnotin. rewrite Heq. now apply in_map. }
        destruct (pair_lt_total a b Hne); congruence. }
      subst b. f_equal.
      apply IH; [assumption | now apply Permutation_cons_inv in Hperm |].
      simpl in Hnd. now apply List.NoDup_cons_iff in Hnd.
Qed.

(** Whatever algorithm the library uses for [std::sort], on the pairs of
    a vector without NaN it returns what the insertion sort returns. *)
Lemma std_sort_unique (sort : list (double * nat) -> list (double * nat))
    (data : list double) :
  sort_contract sort -> ~ In NaN data ->
  sort (make_pairs data) = std_sort (make_pairs data).
Proof.
  intros Hc Hn. pose proof (make_pairs_numbers data Hn) as Hnum.
  destruct (Hc (make_pairs data) Hnum) as [Hperm Hsorted].
  apply sorted_perm_unique.
  - exact Hsorted.
  - now apply std_sort_sorted.
  - rewrite Hperm. symmetry. apply std_sort_perm.
  - now apply (make_pairs_NoDup _ data).
Qed.

(** *** Narrowing the positions to [int] *)

Lemma to_int_in_range (v : Z) : (INT_MIN <= v <= INT_MAX)%Z -> to_int v = v.
Proof.
  unfold INT_MIN, INT_MAX, to_int. intros H.
  rewrite Z.mod_small; lia.
Qed.

Lemma getOrder_positions (data : list double) :
  getOrder data
  = map (fun a => to_int (Z.of_nat a)) (positions std_sort data).
Proof. unfold getOrder, positions. now rewrite map_map. Qed.

(** The insertion sort rearranges the positions, with or without NaN. *)
Lemma std_positions_perm (data : list double) :
  Permutation (positions std_sort data) (seq 0 (length data)).
Proof.
  unfold positions. rewrite <- make_pairs_snd.
  apply Permutation_map, std_sort_perm.
Qed.

(** While every position fits an [int] the narrowing changes nothing. *)
Lemma getOrder_exact (data : list double) :
  (Z.of_nat (length data) <= 2 ^ 31)%Z ->
  getOrder data = map Z.of_nat (positions std_sort data).
Proof.
  intros Hn. rewrite getOrder_positions.
  apply map_ext_in. intros a Ha.
  apply (Permutation_in _ (std_positions_perm data)) in Ha.
  apply in_seq in Ha.
  apply to_int_in_range. unfold INT_MIN, INT_MAX. lia.
Qed.

(** C8, as amended.  For every vector [data] of doubles that holds no
    NaN and whose length [n] is at most 2^31, so that every position
    fits the [int] entries of the result, [getOrder data] is a
    permutation [ind] of [0 .. n-1] such that [data[ind[0]],
    data[ind[1]], ...] does not decrease, and of two equal entries the
    one with the smaller original position comes first. *)
Theorem getOrder_stable_ascending (data : list double) :
  (Z.of_nat (length data) <= 2 ^ 31)%Z ->
  ~ In NaN data ->
  stable_ascending_order data (getOrder data).
Proof.
  intros Hn Hnan. rewrite (getOrder_exact data Hn). split.
  - apply Permutation_map, std_positions_perm.
  - intros i j a b Hij Hi Hj.
    rewrite list_lookup_fmap in Hi, Hj.
    destruct (positions std_sort data !! i) as [a'|] eqn:Ha; [|discriminate].
    destruct (positions std_sort data !! j) as [b'|] eqn:Hb; [|discriminate].
    simpl in Hi, Hj. injection Hi as <-. injection Hj as <-.
    rewrite !Nat2Z.id.
    destruct (positions_ordered std_sort std_sort_contract data Hnan i j a' b'
                Hij Ha Hb) as [Hlt | [Heq Hlt]].
    + pose proof (double_lt_asym _ _ Hlt) as Hgt. split.
      * apply double_le_true.
        destruct (nth a' data (Num 0)), (nth b' data (Num 0));
          simpl in Hlt; repeat split; congruence.
      * unfold double_eq. rewrite andb_true_iff, !double_le_true.
        intros [_ (_ & _ & H)]. congruence.
    + split; [|intros _; lia].
      unfold double_eq in Heq. now apply andb_true_iff in Heq.
Qed.

Example getOrder_example :
  getOrder [Num 3; Num 1; Num 2; Num 1] = [1; 3; 2; 0]%Z.
Proof. reflexivity. Qed.

Lemma getOrder_stable_ascending_witness :
  (Z.of_nat (length [Num 3; Num 1; Num 2; Num 1]) <= 2 ^ 31)%Z
  /\ ~ In NaN [Num 3; Num 1; Num 2; Num 1]
  /\ stable_ascending_order [Num 3; Num 1; Num 2; Num 1]
       (getOrder [Num 3; Num 1; Num 2; Num 1]).
Proof.
  assert (H : (Z.of_nat (length [Num 3; Num 1; Num 2; Num 1]) <= 2 ^ 31)%Z)
    by (vm_compute; discriminate).
  assert (Hn : ~ In NaN [Num 3; Num 1; Num 2; Num 1])
    by (cbv [In]; intuition discriminate).
  split; [exact H | split; [exact Hn|]].
  exact (getOrder_stable_ascending [Num 3; Num 1; Num 2; Num 1] H Hn).
Defined.

(** Beyond 2^31 entries the position 2^31 is stored as [INT_MIN]. *)
Lemma getOrder_wraps (data : list double) :
  (2 ^ 31 < Z.of_nat (length data))%Z -> In (- 2 ^ 31)%Z (getOrder data).
Proof.
  intros Hn. rewrite getOrder_positions. apply in_map_iff.
  exists (Z.to_nat (2 ^ 31)). split.
  - rewrite Z2Nat.id by lia. reflexivity.
  - apply (Permutation_in _ (Permutation_sym (std_positions_perm data))).
    apply in_seq. lia.
Qed.

(** C8, as stated, fails on a vector of 2^31 + 1 entries: the result
    holds a negative entry, so it is not a permutation of the
    positions. *)
Lemma getOrder_long_vector :
  ~ stable_ascending_order long_vector (getOrder long_vector).
Proof.
  intros [Hperm _].
  assert (Hlen : Z.of_nat (length long_vector) = (2 ^ 31 + 1)%Z).
  { unfold long_vector. rewrite repeat_length. apply Z2Nat.id. lia. }
  assert (Hin : In (- 2 ^ 31)%Z (getOrder long_vector)).
  { apply getOrder_wraps. rewrite Hlen. lia. }
  apply (Permutation_in _ Hperm) in Hin.
  apply in_map_iff in Hin as (k & Hk & _). lia.
Qed.

(** *** A vector that holds NaN *)

(** No order of the positions of a vector of two entries or more, one of
    them NaN, is ascending: NaN is neither below nor above any value.
    So the restriction of C8 to vectors without NaN cannot be dropped,
    whatever [std::sort] does on such a vector. *)
Lemma NaN_vector_has_no_order (data : list double) (ind : list Z) :
  In NaN data -> (2 <= length data)%nat -> ~ stable_ascending_order data ind.
Proof.
  intros Hnan Hlen [Hperm Hord].
  apply (In_nth _ _ (Num 0)) in Hnan as (k & Hk & Hnth).
  assert (Hlenind : length ind = length data).
  { rewrite (Permutation_length Hperm). now rewrite length_map, length_seq. }
  assert (Hkin : In (Z.of_nat k) ind).
  { apply (Permutation_in _ (Permutation_sym Hperm)).
    apply in_map, in_seq. lia. }
  apply list_elem_of_In, list_elem_of_lookup in Hkin as [i Hi].
  pose proof (lookup_lt_Some _ _ _ Hi) as Hilt.
  destruct (Nat.eq_dec i 0%nat) as [-> | Hi0].
  - destruct (lookup_lt_is_Some_2 ind 1%nat ltac:(lia)) as [b Hb].
    destruct (Hord 0%nat 1%nat _ _ ltac:(lia) Hi Hb) as [Hle _].
    rewrite Nat2Z.id, Hnth in Hle. discriminate.
  - destruct (lookup_lt_is_Some_2 ind 0%nat ltac:(lia)) as [a Ha].
    destruct (Hord 0%nat i _ _ ltac:(lia) Ha Hi) as [Hle _].
    rewrite Nat2Z.id, Hnth, double_le_NaN_r in Hle. discriminate.
Qed.

(** On the vector {1, 3, NaN, 2} the insertion sort leaves every
    position where it is, 3 before 2. *)
Example getOrder_NaN_example :
  getOrder [Num 1; Num 3; NaN; Num 2] = [0; 1; 2; 3]%Z
  /\ ~ stable_ascending_order [Num 1; Num 3; NaN; Num 2]
         (getOrder [Num 1; Num 3; NaN; Num 2]).
Proof.
  split; [reflexivity|].
  apply NaN_vector_has_no_order; [cbv [In]; auto | simpl; lia].
Qed.

End GetOrderFacts.

(** ** The time-step reduction *)

Section CalcDtFacts.

Import Solver.

Lemma dt_le_refl (a : time_step) : le a a.
Proof.
  unfold le. destruct a as [p|]; simpl; [|reflexivity].
  apply Qltb_false, Qle_refl.
Qed.

Lemma dt_le_trans (a b c : time_step) : le a b -> le b c -> le a c.
Proof.
  unfold le. destruct a as [p|], b as [q|], c as [r|]; simpl;
    try congruence.
  rewrite !Qltb_false. intros H1 H2. now apply Qle_trans with q.
Qed.

Lemma dt_le_total (a b : time_step) : le a b \/ le b a.
Proof.
  unfold le. destruct a as [p|], b as [q|]; simpl; auto.
  rewrite !Qltb_false. destruct (Qlt_le_dec q p) as [H | H]; auto.
  right. now apply Qlt_le_weak.
Qed.

Lemma le_INFINITY (a : time_step) : le a INFINITY.
Proof. now destruct a. Qed.

Lemma INFINITY_le (a : time_step) : le INFINITY a -> a = INFINITY.
Proof. unfold le. now destruct a. Qed.

(** [std::min] returns one of its arguments, below both. *)
Lemma dt_min_cases (a b : time_step) : min a b = a \/ min a b = b.
Proof. unfold min. destruct (lt b a); auto. Qed.

Lemma dt_min_le_l (a b : time_step) : le (min a b) a.
Proof.
  unfold min. destruct (lt b a) eqn:H; [|apply dt_le_refl].
  destruct (dt_le_total b a) as [Hle | Hle]; [exact Hle|].
  unfold le in Hle. congruence.
Qed.

Lemma dt_min_le_r (a b : time_step) : le (min a b) b.
Proof.
  unfold min. destruct (lt b a) eqn:H; [apply dt_le_refl | exact H].
Qed.

(** *** A running minimum *)

Lemma running_min_le_start (l : list time_step) (a : time_step) :
  le (fold_left min l a) a.
Proof.
  revert a. induction l as [|v l IH]; intros a; simpl; [apply dt_le_refl|].
  eapply dt_le_trans; [apply IH | apply dt_min_le_l].
Qed.

Lemma running_min_le_elem (l : list time_step) (a v : time_step) :
  In v l -> le (fold_left min l a) v.
Proof.
  revert a. induction l as [|u l IH]; intros a Hin; simpl; [contradiction|].
  destruct Hin as [-> | Hin].
  - eapply dt_le_trans; [apply running_min_le_start | apply dt_min_le_r].
  - now apply IH.
Qed.

Lemma running_min_cases (l : list time_step) (a : time_step) :
  fold_left min l a = a \/ In (fold_left min l a) l.
Proof.
  revert a. induction l as [|u l IH]; intros a; simpl; [now left|].
  destruct (IH (min a u)) as [H | H]; [|now right; right].
  rewrite H. destruct (dt_min_cases a u) as [-> | ->]; [now left | now right; left].
Qed.

Section OneProcess.

Variable ele : Type.
Variable ele_calcDt : ele -> Q.

Lemma le_Finite (p q : Q) : le (Finite p) (Finite q) <-> (p <= q)%Q.
Proof. unfold le. simpl. apply Qltb_false. Qed.

Lemma thread_loop_fold (iterations : list ele) :
  thread_loop ele ele_calcDt iterations
  = fold_left min (map (fun e => Finite (ele_calcDt e)) iterations) INFINITY.
Proof.
  unfold thread_loop. generalize INFINITY.
  induction iterations as [|e l IH]; intros a; simpl; [reflexivity|].
  apply IH.
Qed.

Lemma thread_loop_le (iterations : list ele) (e : ele) :
  In e iterations ->
  le (thread_loop ele ele_calcDt iterations) (Finite (ele_calcDt e)).
Proof.
  intros Hin. rewrite thread_loop_fold.
  apply running_min_le_elem.
  apply in_map_iff. now exists e.
Qed.

Lemma thread_loop_cases (iterations : list ele) :
  thread_loop ele ele_calcDt iterations = INFINITY
  \/ exists e, In e iterations
               /\ thread_loop ele ele_calcDt iterations = Finite (ele_calcDt e).
Proof.
  rewrite thread_loop_fold.
  destruct (running_min_cases
              (map (fun e => Finite (ele_calcDt e)) iterations) INFINITY)
    as [H | H]; [now left|].
  right. apply in_map_iff in H as (e & He & Hin). now exists e.
Qed.

(** The reduction is below every element of every thread's share. *)
Lemma local_dt_le (schedule : list (list ele)) (e : ele) :
  In e (concat schedule) ->
  le (local_dt ele ele_calcDt schedule) (Finite (ele_calcDt e)).
Proof.
  intros Hin. apply in_concat in Hin as (chunk & Hchunk & He).
  unfold local_dt, omp_for_reduction_min.
  eapply dt_le_trans; [|apply (thread_loop_le chunk e He)].
  apply running_min_le_elem. now apply in_map.
Qed.

(** The reduction returns [INFINITY] or the time step of an element. *)
Lemma local_dt_cases (schedule : list (list ele)) :
  local_dt ele ele_calcDt schedule = INFINITY
  \/ exists e, In e (concat schedule)
               /\ local_dt ele ele_calcDt schedule = Finite (ele_calcDt e).
Proof.
  unfold local_dt, omp_for_reduction_min.
  destruct (running_min_cases (map (thread_loop ele ele_calcDt) schedule)
              INFINITY) as [H | H]; [now left|].
  apply in_map_iff in H as (chunk & Hc & Hchunk).
  destruct (thread_loop_cases chunk) as [Hi | (e & He & Hi)].
  - left. now rewrite <- Hc.
  - right. exists e. split; [|now rewrite <- Hc].
    apply in_concat. now exists chunk.
Qed.

(** Over at least one element the reduction does not return [INFINITY]. *)
Lemma local_dt_finite (schedule : list (list ele)) (e : ele) :
  In e (concat schedule) -> local_dt ele ele_calcDt schedule <> INFINITY.
Proof.
  intros He Hinf. pose proof (local_dt_le schedule e He) as Hle.
  rewrite Hinf in Hle. discriminate Hle.
Qed.

(** However the iterations are dealt to the threads, the reduction over a
    nonempty element list is the minimum of the elements' time steps. *)
Lemma local_dt_minimum (eles : list ele) (schedule : list (list ele)) :
  eles <> [] -> Permutation (concat schedule) eles ->
  is_minimum (local_dt ele ele_calcDt schedule) (map ele_calcDt eles).
Proof.
  intros Hne Hperm.
  destruct (local_dt_cases schedule) as [H | (e & He & H)].
  - destruct eles as [|e eles]; [contradiction|].
    exfalso. apply (local_dt_finite schedule e); [|exact H].
    apply (Permutation_in _ (Permutation_sym Hperm)). now left.
  - exists (ele_calcDt e). split; [exact H|]. split.
    + apply in_map. now apply (Permutation_in _ Hperm).
    + intros v Hv. apply in_map_iff in Hv as (e' & <- & He').
      apply le_Finite. rewrite <- H. apply local_dt_le.
      now apply (Permutation_in _ (Permutation_sym Hperm)).
Qed.

(** The all-reduce returns the least of the contributions. *)
Lemma MPI_Allreduce_MIN_least (contributions : list time_step) :
  contributions <> [] ->
  is_least (MPI_Allreduce_MIN contributions) contributions.
Proof.
  destruct contributions as [|c cs]; [contradiction|]. intros _.
  unfold MPI_Allreduce_MIN. split.
  - destruct (running_min_cases cs c) as [-> | H]; [now left | now right].
  - intros v [<- | Hv].
    + apply running_min_le_start.
    + now apply running_min_le_elem.
Qed.

End OneProcess.

(** C7. For every nonempty element list, [solver::calcDt] assigns to
    [params->dt] the minimum over all elements [i] of [eles[i].calcDt()],
    further reduced by a global minimum across all MPI processes.  The
    minimum is accumulated across threads by the reduction of the
    parallel loop (private copies combined with [min]), never through a
    shared accumulator, so the value does not depend on how the
    iterations are dealt to the threads: [schedule] is any distribution
    of the elements.  Built without MPI, [params->dt] is the minimum over
    the elements of the process; built with MPI, it is the least of the
    processes' local minima, which is the minimum over the elements of
    all processes. *)
Theorem calcDt_minimum (ele : Type) (ele_calcDt : ele -> Q)
    (eles : list ele) (world : list (list (list ele))) (rank : nat)
    (schedule : list (list ele)) (params : input) :
  eles <> [] ->
  world !! rank = Some schedule ->
  Permutation (concat schedule) eles ->
  is_minimum (local_dt ele ele_calcDt schedule) (map ele_calcDt eles)
  /\ dt (calcDt ele ele_calcDt NoMPI world rank params)
     = local_dt ele ele_calcDt schedule
  /\ is_least (dt (calcDt ele ele_calcDt WithMPI world rank params))
              (map (local_dt ele ele_calcDt) world)
  /\ is_minimum (dt (calcDt ele ele_calcDt WithMPI world rank params))
                (map ele_calcDt (concat (concat world))).
Proof.
  intros Hne Hrank Hperm.
  assert (Hworld : map (local_dt ele ele_calcDt) world <> []).
  { destruct world; [discriminate Hrank | discriminate]. }
  pose proof (MPI_Allreduce_MIN_least _ Hworld) as [Gin Gle].
  assert (Hsched : In schedule world).
  { apply list_elem_of_In, list_elem_of_lookup. now exists rank. }
  split; [now apply local_dt_minimum|]. split.
  { simpl. now rewrite nth_lookup, Hrank. }
  split; [now split|]. simpl.
  apply in_map_iff in Gin as (s & Hs & Hsin).
  destruct (local_dt_cases ele ele_calcDt s) as [Hi | (e & He & Hi)].
  - exfalso. destruct eles as [|e eles]; [contradiction|].
    assert (He : In e (concat schedule))
      by (apply (Permutation_in _ (Permutation_sym Hperm)); now left).
    apply (local_dt_finite ele ele_calcDt schedule e He).
    apply INFINITY_le. rewrite <- Hi, Hs. apply Gle. now apply in_map.
  - exists (ele_calcDt e). split; [now rewrite <- Hs|]. split.
    + apply in_map. apply in_concat in He as (chunk & Hchunk & He).
      apply in_concat. exists chunk. split; [|exact He].
      apply in_concat. now exists s.
    + intros v Hv. apply in_map_iff in Hv as (e' & <- & He').
      apply in_concat in He' as (c & Hc & He').
      apply in_concat in Hc as (s' & Hs' & Hc).
      apply le_Finite. rewrite <- Hi, Hs.
      eapply dt_le_trans;
        [apply (Gle (local_dt ele ele_calcDt s')); now apply in_map|].
      apply local_dt_le. apply in_concat. now exists c.
Qed.

(** Two processes; the first deals its three elements to two threads. *)
Lemma calcDt_minimum_witness :
  is_minimum (Finite 1) [3; 1; 2]%Q
  /\ dt (calcDt Q id NoMPI [[[3]; [1; 2]]; [[0.5]]]%Q 0 (mkInput INFINITY))
     = Finite 1
  /\ is_minimum
       (dt (calcDt Q id WithMPI [[[3]; [1; 2]]; [[0.5]]]%Q 0 (mkInput INFINITY)))
       [3; 1; 2; 0.5]%Q.
Proof.
  pose proof (calcDt_minimum Q id [3; 1; 2]%Q [[[3]; [1; 2]]; [[0.5]]]%Q 0
                [[3]; [1; 2]]%Q (mkInput INFINITY)) as H.
  destruct H as (H1 & H2 & _ & H4).
  - discriminate.
  - reflexivity.
  - reflexivity.
  - split; [|split].
    + rewrite map_id in H1. exact H1.
    + exact H2.
    + rewrite map_id in H4. exact H4.
Defined.

Example calcDt_two_processes :
  dt (calcDt Q id WithMPI [[[3]; [1; 2]]; [[0.5]]]%Q 0 (mkInput INFINITY))
  = Finite 0.5.
Proof. reflexivity. Qed.

End CalcDtFacts.

(** ** TypedGather *)

Section TypedGatherFacts.

Import OverComm.
Context {T : Type}.
Implicit Types (locals : list (nat * list T)) (blocks : list (list T)).







Lemma gatherData_counts (stride : nat) locals (r : nat) (local : nat * list T) :
  locals !! r = Some local ->
  fst (gatherData stride locals) !! r = Some (fst local).
Proof.
  intros Hr. simpl. change (map ?f ?l) with (f <$> l).
  now rewrite list_lookup_fmap, Hr.
Qed.


End TypedGatherFacts.


(** The same call gathering doubles, three to a piece. *)
Example gatherData_doubles :
  OverComm.gatherData 3
    [(1%nat, [0.5; 1.5; 2.5]); (2%nat, [3.5; 4.5; 5.5; 6.5; 7.5; 8.5])]%Q
  = ([1; 2]%nat, [0.5; 1.5; 2.5; 3.5; 4.5; 5.5; 6.5; 7.5; 8.5]%Q).
Proof. reflexivity. Qed.

(** ** The exchange channel *)

Section ExchangeFacts.

Import OverComm.
Implicit Types (w : list grid) (g : grid) (donor : nat -> nat -> nat -> bool).

Lemma nth_fmap_lookup {A B : Type} (f : A -> B) (l : list A) (i : nat)
    (a : A) (d : B) :
  l !! i = Some a -> nth i (map f l) d = f a.
Proof.
  intros Hi. rewrite nth_lookup.
  change (map f l) with (f <$> l).
  now rewrite list_lookup_fmap, Hi.
Qed.

Lemma alltoall_nth {A : Type} (d : A) (sends : list (list A)) (X : nat) :
  (X < length sends)%nat ->
  nth X (alltoall d sends) [] = map (fun row => nth X row d) sends.
Proof.
  intros HX. unfold alltoall.
  rewrite (nth_fmap_lookup _ _ X X); [reflexivity|].
  now apply lookup_seq_lt.
Qed.

(** *** The donor search *)

Lemma matchOversetPoints_length donor w A : length (matchOversetPoints donor w A) = length w.
Proof. unfold matchOversetPoints. now rewrite length_map, length_seq. Qed.


Lemma reconnect_length donor w : length (reconnect donor w) = length w.
Proof. apply length_imap. Qed.

Lemma reconnect_lookup donor w A g' :
  reconnect donor w !! A = Some g' ->
  exists g, w !! A = Some g
            /\ nOverPts g' = nOverPts g
            /\ foundPts g' = matchOversetPoints donor w A
            /\ U_in g' = U_in g
            /\ planFresh g' = false.
Proof.
  unfold reconnect. rewrite list_lookup_imap_Some.
  intros (g & Hg & ->). exists g. now simpl.
Qed.

(** *** The plan refresh *)

Lemma refreshPlan_length w : length (refreshPlan w) = length w.
Proof. apply length_imap. Qed.

Lemma refreshPlan_lookup w X g' :
  refreshPlan w !! X = Some g' ->
  exists g, w !! X = Some g
            /\ nOverPts g' = nOverPts g
            /\ foundPts g' = foundPts g
            /\ nPtsSend g' = map length (foundPts g)
            /\ nPtsRecv g' = map (fun h => nth X (map length (foundPts h)) 0%nat) w
            /\ recvPts g' = map (fun h => nth X (foundPts h) []) w
            /\ U_in g' = U_in g
            /\ orphanPts g' = unmatched (nOverPts g) (recvPts g')
            /\ planFresh g' = true.
Proof.
  unfold refreshPlan. rewrite list_lookup_imap_Some.
  intros (g & Hg & ->). exists g. simpl.
  pose proof (lookup_lt_Some _ _ _ Hg) as HX.
  rewrite !alltoall_nth by (now rewrite length_map).
  rewrite !map_map.
  rewrite (nth_fmap_lookup _ _ _ _ _ Hg).
  split; [exact Hg|]. repeat split; reflexivity.
Qed.


(** C2. After the plan refresh of every reconnection event the
    send/receive plan is globally consistent: on each grid [A] the
    entries of [nPtsSend] add up to the number of receptor points the
    grid supplies (all the points it found for other grids), and for
    every ordered pair of grids [(A, X)] the entry of [A]'s [nPtsSend]
    for [X] equals the entry of [X]'s [nPtsRecv] for [A]. *)
Theorem plan_consistent donor w (A X : nat) (gA gX : grid) :
  refreshPlan (reconnect donor w) !! A = Some gA ->
  refreshPlan (reconnect donor w) !! X = Some gX ->
  list_sum (nPtsSend gA) = length (concat (foundPts gA))
  /\ exists c : nat, nPtsSend gA !! X = Some c /\ nPtsRecv gX !! A = Some c.
Proof.
  intros HA HX.
  apply refreshPlan_lookup in HA
    as (hA & HhA & _ & HfA & HsA & _ & _ & _ & _ & _).
  apply refreshPlan_lookup in HX
    as (hX & HhX & _ & _ & _ & HrX & _ & _ & _ & _).
  split.
  - now rewrite HsA, HfA, length_concat.
  - pose proof (reconnect_lookup _ _ _ _ HhA) as (a & Ha & _ & Hfound & _).
    destruct (lookup_lt_is_Some_2 (foundPts hA) X) as [ids Hids].
    { rewrite Hfound, matchOversetPoints_length, <- (reconnect_length donor).
      now apply lookup_lt_Some in HhX. }
    exists (length ids). split.
    + rewrite HsA. change (map ?f ?l) with (f <$> l).
      now rewrite list_lookup_fmap, Hids.
    + rewrite HrX. change (map ?f ?l) with (f <$> l).
      rewrite list_lookup_fmap, HhA. simpl. f_equal.
      now apply nth_fmap_lookup.
Qed.

(** *** A stale plan *)

Lemma reconnect_stale donor w : w <> [] -> stale (reconnect donor w).
Proof.
  intros Hne. split.
  - intros Hnil. apply (f_equal length) in Hnil.
    rewrite reconnect_length in Hnil. now destruct w.
  - intros g Hg. apply list_elem_of_In, list_elem_of_lookup in Hg as [A HA].
    now apply reconnect_lookup in HA as (? & ? & ? & ? & ? & ?).
Qed.

Lemma stale_exchange_fatal U_out w :
  stale w -> exchangeOversetData U_out w = Fatal StalePlan.
Proof.
  intros [Hne Hall]. unfold exchangeOversetData.
  destruct w as [|g w]; [contradiction|].
  simpl. rewrite (Hall g) by now left. reflexivity.
Qed.

Lemma step_nonempty w c w' : w <> [] -> step w c = Done w' -> w' <> [].
Proof.
  intros Hne Hstep Hnil. apply Hne.
  assert (Hlen : length w' = length w).
  { destruct c; simpl in Hstep.
    - injection Hstep as <-. apply reconnect_length.
    - injection Hstep as <-. apply refreshPlan_length.
    - unfold exchangeOversetData in Hstep.
      destruct (forallb planFresh w); [|discriminate].
      injection Hstep as <-. apply length_imap. }
  rewrite Hnil in Hlen. now destruct w.
Qed.

Lemma run_nonempty cs w w' : w <> [] -> run w cs = Done w' -> w' <> [].
Proof.
  revert w. induction cs as [|c cs IH]; intros w Hne Hrun; simpl in Hrun.
  - now injection Hrun as <-.
  - destruct (step w c) as [w1|e] eqn:Hstep; [|discriminate].
    apply (IH w1); [|exact Hrun]. now apply step_nonempty with w c.
Qed.

Lemma run_app w cs1 cs2 :
  run w (cs1 ++ cs2)
  = match run w cs1 with
    | Done w' => run w' cs2
    | Fatal e => Fatal e
    end.
Proof.
  revert w. induction cs1 as [|c cs1 IH]; intros w; simpl; [reflexivity|].
  destruct (step w c); [apply IH | reflexivity].
Qed.

(** With a stale plan, calls other than the refresh leave it stale, and
    the first exchange ends the run. *)
Lemma stale_run_fatal cs U_out w :
  stale w -> (forall c, In c cs -> c <> RefreshPlan) ->
  run w (cs ++ [Exchange U_out]) = Fatal StalePlan.
Proof.
  revert w. induction cs as [|c cs IH]; intros w Hst Hno; simpl.
  - now rewrite stale_exchange_fatal.
  - destruct c as [donor | | U]; simpl.
    + apply IH; [|intros c Hc; apply Hno; now right].
      apply reconnect_stale, Hst.
    + exfalso. apply (Hno RefreshPlan); [now left | reflexivity].
    + now rewrite stale_exchange_fatal.
Qed.

(** C3. Calling the exchange without a completed plan refresh after the
    most recent reconnection event is detected and fails at once with
    the fatal error [StalePlan]; nothing is packed or sent against the
    stale plan.  Whatever calls [before] came first, and whatever calls
    other than a refresh [since] were made after the reconnection event,
    the run ends in that error. *)
Theorem stale_plan_rejected w donor U_out (before since : list call) :
  w <> [] ->
  (forall c, In c since -> c <> RefreshPlan) ->
  run w (before ++ Reconnect donor :: since ++ [Exchange U_out])
  = Fatal StalePlan.
Proof.
  intros Hne Hno. rewrite run_app.
  destruct (run w before) as [w1|e] eqn:Hrun; [|now destruct e].
  change (run w1 (Reconnect donor :: since ++ [Exchange U_out]))
    with (run (reconnect donor w1) (since ++ [Exchange U_out])).
  apply stale_run_fatal; [|exact Hno].
  apply reconnect_stale. now apply run_nonempty with before w.
Qed.

(** *** Orphan points *)






(** *** The two-grid example *)

Example two_grids_plan :
  map (fun g => (nPtsSend g, nPtsRecv g, recvPts g, orphanPts g))
      (refreshPlan (reconnect two_grids_donor two_grids))
  = [ ([0; 1]%nat, [0; 2]%nat, [[]; [0; 2]]%nat, [1]%nat);
      ([2; 0]%nat, [1; 0]%nat, [[1]; []]%nat, [0]%nat) ].
Proof. reflexivity. Qed.

Example two_grids_exchange :
  match exchangeOversetData two_grids_U_out
          (refreshPlan (reconnect two_grids_donor two_grids)) with
  | Done w' => map U_in w' = [ [[9]; [2]; [8]]; [[4]; [9]] ]%Q
  | Fatal _ => False
  end.
Proof. reflexivity. Qed.

Lemma plan_consistent_witness :
  exists gA gX : grid,
    refreshPlan (reconnect two_grids_donor two_grids) !! 1%nat = Some gA
    /\ refreshPlan (reconnect two_grids_donor two_grids) !! 0%nat = Some gX
    /\ list_sum (nPtsSend gA) = length (concat (foundPts gA))
    /\ exists c : nat,
         nPtsSend gA !! 0%nat = Some c /\ nPtsRecv gX !! 1%nat = Some c.
Proof.
  eexists. eexists.
  split; [reflexivity|]. split; [reflexivity|].
  apply (plan_consistent two_grids_donor two_grids 1 0); reflexivity.
Defined.

Lemma stale_plan_rejected_witness :
  run two_grids
      ([Reconnect two_grids_donor; RefreshPlan; Exchange two_grids_U_out]
         ++ Reconnect two_grids_donor
         :: [Reconnect two_grids_donor] ++ [Exchange two_grids_U_out])
  = Fatal StalePlan.
Proof.
  apply stale_plan_rejected.
  - discriminate.
  - intros c [<- | []]. discriminate.
Defined.


End ExchangeFacts.

(** ** Derivatives of the shape functions *)

Section DerivativeFacts.

Import Funcs.
#[local] Open Scope Q_scope.

Variable setup : matrix -> Z -> Z -> matrix.

(** Unfolds shape routines and their derivative routines at a concrete
    node and direction down to the polynomials stored there. *)
Ltac entry_polynomials :=
  cbv [shape_quad shape_hex shape_tri shape_tet
       dshape_quad dshape_hex dshape_tri dshape_tet
       assign assign2 store store2 fold_left column cells sumQ map seq
       fold_right Nat.eqb andb fst snd nth XI ETA MU shift x y z].

(** Settles [is_gradient] node by node and direction by direction. *)
Ltac gradient_by_cases :=
  intros rs h i d Hi Hd;
  repeat (destruct d as [|d]; [|try lia]);
  repeat (destruct i as [|i]; [entry_polynomials; ring | try lia]).

Lemma dshape_quad_4_gradient p m :
  is_gradient 4 2 (fun rs => shape_quad rs p 4)
              (fun rs => dshape_quad setup rs m 4).
Proof. gradient_by_cases. Qed.

Lemma dshape_quad_8_gradient p m :
  is_gradient 8 2 (fun rs => shape_quad rs p 8)
              (fun rs => dshape_quad setup rs m 8).
Proof. gradient_by_cases. Qed.

Lemma dshape_hex_8_gradient p m :
  is_gradient 8 3 (fun rs => shape_hex rs p 8)
              (fun rs => dshape_hex setup rs m 8).
Proof. gradient_by_cases. Qed.

Lemma dshape_hex_20_gradient p m :
  is_gradient 20 3 (fun rs => shape_hex rs p 20)
              (fun rs => dshape_hex setup rs m 20).
Proof. gradient_by_cases. Qed.

Lemma dshape_tri_gradient p m :
  is_gradient 3 2 (fun rs => shape_tri rs p) (fun rs => dshape_tri setup rs m).
Proof. gradient_by_cases. Qed.

Lemma dshape_tet_gradient p m :
  is_gradient 4 3 (fun rs => shape_tet rs p) (fun rs => dshape_tet setup rs m).
Proof. gradient_by_cases. Qed.

(** X1. [dshape_quad] writes the partial derivatives of the weights of
    [shape_quad], for 4 and for 8 nodes: along either reference direction
    the central difference of each weight over any step [h] equals [2 h]
    times the entry of [out_dshape], at every point. *)
Theorem dshape_quad_is_gradient p m :
  is_gradient 4 2 (fun rs => shape_quad rs p 4)
              (fun rs => dshape_quad setup rs m 4)
  /\ is_gradient 8 2 (fun rs => shape_quad rs p 8)
                 (fun rs => dshape_quad setup rs m 8).
Proof. split; [apply dshape_quad_4_gradient | apply dshape_quad_8_gradient]. Qed.

(** X2. [dshape_hex] writes the partial derivatives of the weights of
    [shape_hex], for 8 and for 20 nodes, along the three reference
    directions. *)
Theorem dshape_hex_is_gradient p m :
  is_gradient 8 3 (fun rs => shape_hex rs p 8)
              (fun rs => dshape_hex setup rs m 8)
  /\ is_gradient 20 3 (fun rs => shape_hex rs p 20)
                 (fun rs => dshape_hex setup rs m 20).
Proof. split; [apply dshape_hex_8_gradient | apply dshape_hex_20_gradient]. Qed.

(** X3. [dshape_tri] and [dshape_tet] write the partial derivatives of
    the weights of [shape_tri] and [shape_tet]. *)
Theorem dshape_simplex_is_gradient p m :
  is_gradient 3 2 (fun rs => shape_tri rs p) (fun rs => dshape_tri setup rs m)
  /\ is_gradient 4 3 (fun rs => shape_tet rs p) (fun rs => dshape_tet setup rs m).
Proof. split; [apply dshape_tri_gradient | apply dshape_tet_gradient]. Qed.

(** X4. In every matrix that a derivative routine fills, each column sums
    to zero over the nodes: the gradient interpolated from a constant
    nodal field vanishes. *)
Theorem dshape_columns_sum_to_zero rs m :
  (sumQ (column (dshape_quad setup rs m 4) 4 0) == 0
   /\ sumQ (column (dshape_quad setup rs m 4) 4 1) == 0)
  /\ (sumQ (column (dshape_quad setup rs m 8) 8 0) == 0
      /\ sumQ (column (dshape_quad setup rs m 8) 8 1) == 0)
  /\ (sumQ (column (dshape_hex setup rs m 8) 8 0) == 0
      /\ sumQ (column (dshape_hex setup rs m 8) 8 1) == 0
      /\ sumQ (column (dshape_hex setup rs m 8) 8 2) == 0)
  /\ (sumQ (column (dshape_hex setup rs m 20) 20 0) == 0
      /\ sumQ (column (dshape_hex setup rs m 20) 20 1) == 0
      /\ sumQ (column (dshape_hex setup rs m 20) 20 2) == 0)
  /\ (sumQ (column (dshape_tri setup rs m) 3 0) == 0
      /\ sumQ (column (dshape_tri setup rs m) 3 1) == 0)
  /\ (sumQ (column (dshape_tet setup rs m) 4 0) == 0
      /\ sumQ (column (dshape_tet setup rs m) 4 1) == 0
      /\ sumQ (column (dshape_tet setup rs m) 4 2) == 0).
Proof. repeat apply conj; entry_polynomials; ring. Qed.

End DerivativeFacts.

(** ** Weights inside the reference element *)

Section WeightFacts.

Import Funcs.
#[local] Open Scope Q_scope.

Lemma sumQ_ge_elem (w : list Q) (a : Q) :
  (forall b, In b w -> 0 <= b) -> In a w -> a <= sumQ w.
Proof.
  induction w as [|b w IH]; intros Hpos Hin; [contradiction|].
  simpl. assert (Hs : 0 <= sumQ w).
  { clear IH Hin. induction w as [|c w IHw]; simpl; [lra|].
    assert (0 <= c) by (apply Hpos; right; now left).
    assert (0 <= sumQ w) by (apply IHw; intros d [Hd | Hd]; apply Hpos;
                             [now left | right; now right]).
    lra. }
  destruct Hin as [<- | Hin].
  - lra.
  - assert (a <= sumQ w) by (apply IH; [intros c Hc; apply Hpos; now right | exact Hin]).
    assert (0 <= b) by (apply Hpos; now left). lra.
Qed.

(** Non-negative weights that sum to one lie between 0 and 1. *)
Lemma nonneg_unity_convex (w : list Q) :
  (forall b, In b w -> 0 <= b) -> sumQ w == 1 -> convex_weights w.
Proof.
  intros Hpos Hsum a Ha. split; [now apply Hpos|].
  rewrite <- Hsum. now apply sumQ_ge_elem.
Qed.

Lemma product2_nonneg (c a b : Q) : 0 <= c -> 0 <= a -> 0 <= b -> 0 <= c * a * b.
Proof. intros. repeat apply Qmult_le_0_compat; assumption. Qed.

Lemma product3_nonneg (k a b c : Q) :
  0 <= k -> 0 <= a -> 0 <= b -> 0 <= c -> 0 <= k * a * b * c.
Proof. intros. repeat apply Qmult_le_0_compat; assumption. Qed.

(** Closes the membership cases of a list of weights, each a product of
    non-negative factors. *)
Ltac weights_nonneg :=
  intros b Hb; cbv [In] in Hb;
  repeat (destruct Hb as [<- | Hb];
          [first [apply product3_nonneg; lra | apply product2_nonneg; lra | lra] |]);
  contradiction.

(** X6. Inside the reference square and cube the weights of the 4-node
    quadrilateral and of the 8-node hexahedron lie between 0 and 1, so
    the interpolated value is a convex combination of the nodal values. *)
Theorem linear_weights_convex rs p :
  -1 <= x rs <= 1 -> -1 <= y rs <= 1 -> -1 <= z rs <= 1 ->
  convex_weights (cells (shape_quad rs p 4) 4)
  /\ convex_weights (cells (shape_hex rs p 8) 8).
Proof.
  intros Hx Hy Hz. split.
  - apply nonneg_unity_convex; [|apply (proj1 (shape_quad_4_unity rs p))].
    cbv [shape_quad assign store fold_left cells map seq Nat.eqb fst snd].
    weights_nonneg.
  - apply nonneg_unity_convex; [|apply (proj1 (shape_hex_8_unity rs p))].
    cbv [shape_hex assign store fold_left cells map seq Nat.eqb fst snd].
    weights_nonneg.
Qed.

Lemma linear_weights_convex_witness :
  convex_weights (cells (shape_quad (mkPoint 0.5 (-1) 0) (fun _ => 0) 4) 4)
  /\ convex_weights (cells (shape_hex (mkPoint 0.5 (-1) 0) (fun _ => 0) 8) 8).
Proof.
  apply linear_weights_convex; simpl; lra.
Defined.

(** X7. Inside the reference triangle and tetrahedron the weights of
    [shape_tri] and [shape_tet] lie between 0 and 1. *)
Theorem simplex_weights_convex rs p :
  0 <= x rs -> 0 <= y rs -> 0 <= z rs -> x rs + y rs + z rs <= 1 ->
  convex_weights (cells (shape_tri rs p) 3)
  /\ convex_weights (cells (shape_tet rs p) 4).
Proof.
  intros Hx Hy Hz Hs. split.
  - apply nonneg_unity_convex; [|apply (proj1 (shape_tri_unity rs p))].
    cbv [shape_tri assign store fold_left cells map seq Nat.eqb fst snd].
    weights_nonneg.
  - apply nonneg_unity_convex; [|apply (proj1 (shape_tet_unity rs p))].
    cbv [shape_tet assign store fold_left cells map seq Nat.eqb fst snd].
    weights_nonneg.
Qed.

Lemma simplex_weights_convex_witness :
  convex_weights (cells (shape_tri (mkPoint 0.25 0.5 0.125) (fun _ => 0)) 3)
  /\ convex_weights (cells (shape_tet (mkPoint 0.25 0.5 0.125) (fun _ => 0)) 4).
Proof.
  apply simplex_weights_convex; simpl; lra.
Defined.

(** X8. At the corner [j] of the reference hexahedron, read from the
    sign tables [XI], [ETA], [MU] of [shape_hex], the weight of node [j]
    is 1 and every other weight is 0, for 8 and for 20 nodes. *)
Theorem shape_hex_corner_weights p (j i : nat) :
  (j < 8)%nat ->
  ((i < 8)%nat ->
     shape_hex (corner j) p 8 i == if Nat.eqb i j then 1 else 0)
  /\ ((i < 20)%nat ->
        shape_hex (corner j) p 20 i == if Nat.eqb i j then 1 else 0).
Proof.
  intros Hj.
  repeat (destruct j as [|j]; [|try lia]);
    (split; intros Hi;
     repeat (destruct i as [|i]; [vm_compute; reflexivity | try lia])).
Qed.

Lemma shape_hex_corner_weights_witness :
  shape_hex (corner 6) (fun _ => 0) 8 6%nat == 1
  /\ shape_hex (corner 6) (fun _ => 0) 20 3%nat == 0.
Proof.
  split.
  - apply (shape_hex_corner_weights (fun _ => 0) 6 6); lia.
  - apply (shape_hex_corner_weights (fun _ => 0) 6 3); lia.
Defined.

End WeightFacts.

(** ** More on getOrder *)

Section GetOrderUse.

Import Funcs.
#[local] Open Scope Q_scope.

Lemma make_pairs_length (data : list double) :
  length (make_pairs data) = length data.
Proof. unfold make_pairs. now rewrite length_map, length_seq. Qed.

Lemma make_pairs_lookup (data : list double) (i : nat) (p : double * nat) :
  make_pairs data !! i = Some p ->
  p = (nth i data (Num 0), i) /\ (i < length data)%nat.
Proof.
  unfold make_pairs. change (map ?f ?l) with (f <$> l).
  rewrite list_lookup_fmap. intros H.
  destruct (seq 0 (length data) !! i) as [k|] eqn:Hk; [|discriminate].
  apply lookup_seq in Hk as [-> Hlt]. simpl in H. injection H as <-. now split.
Qed.

Lemma make_pairs_fst (data : list double) : map fst (make_pairs data) = data.
Proof.
  unfold make_pairs. rewrite map_map. simpl.
  apply nth_ext with (d := Num 0) (d' := Num 0).
  - now rewrite length_map, length_seq.
  - intros i Hi. rewrite length_map, length_seq in Hi.
    rewrite (nth_indep _ (Num 0) (nth 0 data (Num 0)))
      by now rewrite length_map, length_seq.
    rewrite (map_nth (fun k => nth k data (Num 0))), seq_nth by assumption.
    reflexivity.
Qed.

(** X9. The vector that [getOrder] returns has as many entries as
    [data], whatever the length of [data]; on an empty vector it is
    empty. *)
Theorem getOrder_length (data : list double) :
  length (getOrder data) = length data.
Proof.
  unfold getOrder. rewrite length_map.
  rewrite (Permutation_length (std_sort_perm (make_pairs data))).
  apply make_pairs_length.
Qed.

(** A list is strongly sorted when any two of its entries are in order. *)
Lemma sorted_by_lookup {A : Type} (R : A -> A -> Prop) (l : list A) :
  (forall i j a b, (i < j)%nat -> l !! i = Some a -> l !! j = Some b -> R a b) ->
  StronglySorted R l.
Proof.
  induction l as [|a l IH]; intros H; constructor.
  - apply IH. intros i j u v Hij Hi Hj. now apply (H (S i) (S j)); [lia | |].
  - apply Forall_forall. intros b Hb.
    apply list_elem_of_lookup in Hb as [j Hj].
    now apply (H 0%nat (S j)); [lia | |].
Qed.

Lemma not_above_fst (p q : double * nat) :
  fst p <> NaN -> fst q <> NaN -> not_above p q ->
  double_le (fst p) (fst q) = true.
Proof.
  intros Hp Hq H. apply double_le_true. repeat split; [exact Hp | exact Hq |].
  unfold not_above, pair_lt in H. now apply orb_false_iff in H.
Qed.

Lemma reorder_getOrder (data : list double) :
  (Z.of_nat (length data) <= 2 ^ 31)%Z ->
  reorder data (getOrder data) = map fst (std_sort (make_pairs data)).
Proof.
  intros Hn. rewrite (getOrder_exact data Hn). unfold reorder, positions.
  rewrite !map_map. apply map_ext_in. intros p Hp.
  apply (Permutation_in _ (std_sort_perm (make_pairs data))) in Hp.
  apply make_pairs_elem in Hp as [Hp _]. now rewrite Nat2Z.id.
Qed.

(** X10. Reading a vector [data] without NaN through the result of
    [getOrder] sorts it: the values [data[ind[0]]], [data[ind[1]]], ...
    are a rearrangement of the entries of [data] in non-decreasing order
    (for a vector of at most 2^31 entries). *)
Theorem getOrder_sorts_values (data : list double) :
  (Z.of_nat (length data) <= 2 ^ 31)%Z ->
  ~ In NaN data ->
  Permutation (reorder data (getOrder data)) data
  /\ ascending (reorder data (getOrder data)).
Proof.
  intros Hn Hnan. rewrite (reorder_getOrder data Hn). split.
  - rewrite <- (make_pairs_fst data) at 2.
    apply Permutation_map, std_sort_perm.
  - pose proof (make_pairs_numbers data Hnan) as Hnum.
    assert (Hin : forall k r, std_sort (make_pairs data) !! k = Some r ->
                               fst r <> NaN).
    { intros k r Hk. apply Hnum.
      apply (Permutation_in _ (std_sort_perm (make_pairs data))).
      apply list_elem_of_In, list_elem_of_lookup. now exists k. }
    apply sorted_by_lookup. intros i j a b Hij Hi Hj.
    change (map fst ?l) with (fst <$> l) in Hi, Hj.
    rewrite list_lookup_fmap in Hi, Hj.
    destruct (std_sort (make_pairs data) !! i) as [p|] eqn:Hp; [|discriminate].
    destruct (std_sort (make_pairs data) !! j) as [q|] eqn:Hq; [|discriminate].
    simpl in Hi, Hj. injection Hi as <-. injection Hj as <-.
    apply not_above_fst; [now apply (Hin i) | now apply (Hin j) |].
    apply (sorted_lookup _ i j p q (std_sort_sorted _ Hnum) Hij Hp Hq).
Qed.

Lemma getOrder_sorts_values_witness :
  Permutation (reorder [Num 3; NInf; Num 2; PInf; Num 2]
                 (getOrder [Num 3; NInf; Num 2; PInf; Num 2]))
    [Num 3; NInf; Num 2; PInf; Num 2]
  /\ ascending (reorder [Num 3; NInf; Num 2; PInf; Num 2]
                  (getOrder [Num 3; NInf; Num 2; PInf; Num 2])).
Proof.
  apply getOrder_sorts_values.
  - vm_compute. discriminate.
  - cbv [In]. intuition discriminate.
Defined.

(** Sorting pairs that are already in order changes nothing. *)
Lemma std_sort_in_order (l : list (double * nat)) :
  StronglySorted (fun p q => pair_lt p q = true) l -> std_sort l = l.
Proof.
  induction 1 as [|p l Hs IH Hp]; [reflexivity|].
  simpl. rewrite IH. destruct l as [|q l]; [reflexivity|].
  simpl. rewrite Forall_forall in Hp.
  rewrite (Hp q) by (apply list_elem_of_In; now left). reflexivity.
Qed.

(** The pairs of a vector whose values do not decrease are in order. *)
Lemma make_pairs_in_order (data : list double) :
  (forall i j, (i < j < length data)%nat ->
     double_le (nth i data (Num 0)) (nth j data (Num 0)) = true) ->
  StronglySorted (fun p q => pair_lt p q = true) (make_pairs data).
Proof.
  intros Hmono. apply sorted_by_lookup. intros i j p q Hij Hi Hj.
  apply make_pairs_lookup in Hi as [-> _].
  apply make_pairs_lookup in Hj as [-> Hlt].
  apply pair_lt_cases. right. simpl. split; [|exact Hij].
  apply (double_le_true (nth i data (Num 0))). apply Hmono. lia.
Qed.

(** X11. On a vector whose values already do not decrease, [getOrder]
    returns the positions [0, 1, ..., n-1] unchanged (for a vector of at
    most 2^31 entries). *)
Theorem getOrder_sorted_input (data : list double) :
  (Z.of_nat (length data) <= 2 ^ 31)%Z ->
  (forall i j, (i < j < length data)%nat ->
     double_le (nth i data (Num 0)) (nth j data (Num 0)) = true) ->
  getOrder data = map Z.of_nat (seq 0 (length data)).
Proof.
  intros Hn Hmono. rewrite (getOrder_exact data Hn). f_equal.
  unfold positions. rewrite <- make_pairs_snd. f_equal.
  now apply std_sort_in_order, make_pairs_in_order.
Qed.

Lemma getOrder_sorted_input_witness :
  getOrder [Num 1; Num 1; Num 2; Num 5] = [0; 1; 2; 3]%Z.
Proof.
  apply (getOrder_sorted_input [Num 1; Num 1; Num 2; Num 5]).
  - vm_compute. discriminate.
  - intros i j Hij. simpl in Hij.
    destruct i as [|[|[|[|i]]]]; destruct j as [|[|[|[|j]]]];
      try lia; vm_compute; reflexivity.
Defined.

(** *** Values changed by an increasing map *)

Section Increasing.

Variable f : double -> double.
Hypothesis f_increasing :
  forall u v : double, double_lt u v = true <-> double_lt (f u) (f v) = true.

Lemma double_lt_increasing (u v : double) :
  double_lt (f u) (f v) = double_lt u v.
Proof using f_increasing.
  destruct (double_lt u v) eqn:H.
  - exact (proj1 (f_increasing u v) H).
  - apply not_true_iff_false. intros Hf.
    apply (proj2 (f_increasing u v)) in Hf. congruence.
Qed.

Lemma pair_lt_increasing (p q : double * nat) :
  pair_lt (on_value f p) (on_value f q) = pair_lt p q.
Proof using f_increasing.
  unfold pair_lt, Funcs.on_value. simpl. now rewrite !double_lt_increasing.
Qed.

Lemma insert_pair_increasing (p : double * nat) (l : list (double * nat)) :
  insert_pair (on_value f p) (map (on_value f) l)
  = map (on_value f) (insert_pair p l).
Proof using f_increasing.
  induction l as [|q l IH]; simpl; [reflexivity|].
  rewrite pair_lt_increasing. destruct (pair_lt p q); simpl; [reflexivity|].
  now rewrite IH.
Qed.

Lemma std_sort_increasing (l : list (double * nat)) :
  std_sort (map (on_value f) l) = map (on_value f) (std_sort l).
Proof using f_increasing.
  induction l as [|p l IH]; simpl; [reflexivity|].
  rewrite IH. apply insert_pair_increasing.
Qed.

Lemma make_pairs_increasing (data : list double) :
  make_pairs (map f data) = map (on_value f) (make_pairs data).
Proof.
  unfold make_pairs. rewrite length_map, map_map.
  apply map_ext_in. intros i Hi. apply in_seq in Hi.
  unfold Funcs.on_value. simpl. f_equal.
  rewrite (nth_indep _ (Num 0) (f (Num 0))) by (rewrite length_map; lia).
  apply map_nth.
Qed.

(** X12. [getOrder] depends only on how the values compare: changing
    every value by the same strictly increasing map (a positive scaling,
    a shift) leaves the result unchanged. *)
Theorem getOrder_increasing (data : list double) :
  getOrder (map f data) = getOrder data.
Proof using f_increasing.
  unfold getOrder.
  rewrite make_pairs_increasing, std_sort_increasing, map_map.
  reflexivity.
Qed.

End Increasing.

Lemma getOrder_increasing_witness :
  getOrder (map twice_plus_one [Num 3; Num 1; Num 2; Num 1])
  = getOrder [Num 3; Num 1; Num 2; Num 1].
Proof.
  apply getOrder_increasing. intros u v.
  destruct u as [p| | |], v as [q| | |]; simpl; try tauto.
  rewrite !Qltb_true. split; intros H; lra.
Defined.

End GetOrderUse.

(** ** Time advancement *)

Section TimeAdvanceFacts.

Import Funcs TimeAdvance.
#[local] Open Scope Q_scope.

(** The constants that stand for [1./6.] and [1./3.] are the doubles
    nearest to one sixth and to one third. *)
Lemma RK4_weights_nearest :
  nearest_double (1/6) one_sixth /\ nearest_double (1/3) one_third.
Proof.
  split.
  - exists 6004799503160661%Z, (-55)%Z. repeat split; try (vm_compute; congruence).
  - exists 6004799503160661%Z, (-54)%Z. repeat split; try (vm_compute; congruence).
Qed.

(** X13. The time-advancement setup accepts the time-stepping types 0
    and 4 only and fails with a fatal error on any other.  Whatever the
    tables held before, the scheme it installs holds every entry that
    [update] reads ([nRKSteps >= 1], [RKa[0 .. nRKSteps-2]] and
    [RKb[0 .. nRKSteps-1]]).  Type 0 leaves [RKa] as it was and has the
    one weight 1; the weights of type 4 are the doubles nearest to 1/6,
    1/3, 1/3 and 1/6, and these add up to [1 - 2^-54], not to 1. *)
Theorem setup_time_advancement_tables (timeType : Z) (t : tables) :
  match setup_time_advancement timeType t with
  | Ready t' =>
      (timeType = 0 \/ timeType = 4)%Z
      /\ well_formed t'
      /\ (timeType = 0%Z -> RKa t' = RKa t /\ RKb t' = [1])
      /\ (timeType = 4%Z ->
            Forall2 nearest_double [1/6; 1/3; 1/3; 1/6] (RKb t')
            /\ sumQ (RKb t') == 1 - 2 ^ (-54))
  | FatalError _ => timeType <> 0%Z /\ timeType <> 4%Z
  end.
Proof.
  assert (H : (timeType = 0 \/ timeType = 4
               \/ (timeType <> 0 /\ timeType <> 4))%Z) by lia.
  destruct H as [-> | [-> | [H0 H4]]].
  - cbn [setup_time_advancement]. unfold well_formed. cbn [nRKSteps RKa RKb length].
    repeat split; auto; try lia; try discriminate.
  - cbn [setup_time_advancement]. unfold well_formed. cbn [nRKSteps RKa RKb length].
    destruct RK4_weights_nearest as [H6 H3].
    repeat split; auto; try lia; try discriminate.
  - replace (setup_time_advancement timeType t)
      with (FatalError Time_stepping_type_not_supported); [now split|].
    unfold setup_time_advancement.
    repeat match goal with
           | |- context [match ?k with _ => _ end] => destruct k
           end; try reflexivity; congruence.
Qed.

Lemma setup_time_advancement_tables_witness :
  sumQ [one_sixth; one_third; one_third; one_sixth] == 1 - 2 ^ (-54)
  /\ RKa (mkTables 1 [0.25] [1]) = [0.25].
Proof.
  pose proof (setup_time_advancement_tables 4 (mkTables 0 [] [])) as H4.
  pose proof (setup_time_advancement_tables 0 (mkTables 7 [0.25] [])) as H0.
  cbn [setup_time_advancement] in H4, H0.
  destruct H4 as (_ & _ & _ & H4). destruct H0 as (_ & _ & H0 & _).
  split; [exact (proj2 (H4 eq_refl)) | exact (proj1 (H0 eq_refl))].
Defined.

(** *** The stage loop *)

Lemma stage_first t new_dt p tr :
  stage t new_dt (p, tr) 0
  = (if (dtType p =? 1)%Z
     then set_dt (set_rkTime p (time p)) new_dt
     else set_rkTime p (time p),
     tr ++ [MoveMesh 0 (time p); CalcResidual 0]
        ++ (if (dtType p =? 1)%Z then [CalcDt] else [])
        ++ [TimeStepA 0 (nth 0 (RKa t) 0)]).
Proof.
  unfold stage. simpl. destruct (dtType p =? 1)%Z; simpl;
    now rewrite <- !app_assoc.
Qed.

Lemma stage_later t new_dt p tr (k : Z) :
  k <> 0%Z ->
  stage t new_dt (p, tr) k
  = (set_rkTime p (time p + nth (Z.to_nat (k - 1)) (RKa t) 0 * dt p),
     tr ++ later_stages t p [k]).
Proof.
  intros Hk. unfold stage, later_stages. simpl.
  apply Z.eqb_neq in Hk. rewrite Hk. simpl.
  now rewrite <- !app_assoc.
Qed.

Lemma later_stages_same t p p' ks :
  time p' = time p -> dt p' = dt p -> later_stages t p' ks = later_stages t p ks.
Proof. intros Ht Hd. unfold later_stages. now rewrite Ht, Hd. Qed.

Lemma loop_later t new_dt ks :
  (forall k, In k ks -> k <> 0%Z) ->
  forall p tr, exists p',
    fold_left (stage t new_dt) ks (p, tr) = (p', tr ++ later_stages t p ks)
    /\ time p' = time p /\ dt p' = dt p /\ dtType p' = dtType p.
Proof.
  induction ks as [|k ks IH]; intros Hks p tr.
  - exists p. simpl. now rewrite app_nil_r.
  - simpl fold_left. rewrite stage_later by (apply Hks; now left).
    destruct (IH (fun k' Hk' => Hks k' (or_intror Hk'))
                (set_rkTime p (time p + nth (Z.to_nat (k - 1)) (RKa t) 0 * dt p))
                (tr ++ later_stages t p [k])) as (p' & Hfold & Ht & Hd & Hty).
    exists p'. rewrite Hfold. split; [|now repeat split].
    rewrite <- app_assoc. reflexivity.
Qed.

Lemma zrange_of_nat (N : nat) : zrange (Z.of_nat N) = map Z.of_nat (seq 0 N).
Proof. unfold zrange. now rewrite Nat2Z.id. Qed.

Lemma later_steps_nonzero (K : nat) (k : Z) :
  In k (map Z.of_nat (seq 1 K)) -> k <> 0%Z.
Proof. rewrite in_map_iff. intros (i & <- & Hi). apply in_seq in Hi. lia. Qed.

(** What [update] does for a scheme of one stage. *)
Lemma update_one_stage t new_dt p :
  nRKSteps t = 1%Z ->
  update t new_dt p
  = (set_time (if (dtType p =? 1)%Z
               then set_dt (set_rkTime p (time p)) new_dt
               else set_rkTime p (time p))
              (time p + dt_in_force new_dt p),
     (if (dtType p =? 1)%Z then [CalcDt] else [])
       ++ [MoveMesh 0 (time p); CalcResidual 0;
           TimeStepB 0 (nth 0 (RKb t) 0)]).
Proof.
  intros Hn. unfold update, dt_in_force. rewrite Hn. simpl.
  destruct (dtType p =? 1)%Z; reflexivity.
Qed.

(** What [update] does for a scheme of two stages or more. *)
Lemma update_more_stages t new_dt p (K : nat) :
  nRKSteps t = Z.of_nat (S (S K)) ->
  exists p1,
    time p1 = time p /\ dt p1 = dt_in_force new_dt p
    /\ update t new_dt p
       = (set_time (set_rkTime p1 (time p1 + dt p1)) (time p1 + dt p1),
          [CopyUspts_U0; MoveMesh 0 (time p); CalcResidual 0]
            ++ (if (dtType p =? 1)%Z then [CalcDt] else [])
            ++ [TimeStepA 0 (nth 0 (RKa t) 0)]
            ++ later_stages t p1 (map Z.of_nat (seq 1 K))
            ++ [MoveMesh (Z.of_nat (S K)) (time p1 + dt p1);
                CalcResidual (Z.of_nat (S K)); CopyU0_Uspts]
            ++ map (fun step => TimeStepB step (nth (Z.to_nat step) (RKb t) 0))
                   (map Z.of_nat (seq 0 (S (S K))))).
Proof.
  intros Hn. unfold update. rewrite Hn.
  replace (Z.of_nat (S (S K)) - 1)%Z with (Z.of_nat (S K)) by lia.
  rewrite !zrange_of_nat.
  assert (H1 : (1 <? Z.of_nat (S (S K)))%Z = true) by (apply Z.ltb_lt; lia).
  assert (H2 : (Z.of_nat (S (S K)) =? 1)%Z = false) by (apply Z.eqb_neq; lia).
  rewrite H1, H2.
  change (map Z.of_nat (seq 0 (S K)))
    with (0%Z :: map Z.of_nat (seq 1 K)).
  simpl fold_left. rewrite stage_first.
  set (p0 := if (dtType p =? 1)%Z
             then set_dt (set_rkTime p (time p)) new_dt
             else set_rkTime p (time p)).
  destruct (loop_later t new_dt (map Z.of_nat (seq 1 K))
              (later_steps_nonzero K) p0
              ([CopyUspts_U0] ++ [MoveMesh 0 (time p); CalcResidual 0]
                 ++ (if (dtType p =? 1)%Z then [CalcDt] else [])
                 ++ [TimeStepA 0 (nth 0 (RKa t) 0)]))
    as (p1 & Hfold & Ht & Hd & _).
  assert (Ht0 : time p0 = time p) by (unfold p0; now destruct (dtType p =? 1)%Z).
  assert (Hd0 : dt p0 = dt_in_force new_dt p)
    by (unfold p0, dt_in_force; now destruct (dtType p =? 1)%Z).
  exists p1. split; [congruence|]. split; [congruence|].
  rewrite Hfold. cbn [fst snd].
  rewrite (later_stages_same t p0 p1) by congruence.
  f_equal. rewrite <- !app_assoc. reflexivity.
Qed.

(** *** What the trace of [update] holds *)

Lemma calcDt_calls_app tr1 tr2 :
  calcDt_calls (tr1 ++ tr2) = (calcDt_calls tr1 + calcDt_calls tr2)%nat.
Proof. unfold calcDt_calls. now rewrite flat_map_app, length_app. Qed.

Lemma without_calcDt_app tr1 tr2 :
  without_calcDt (tr1 ++ tr2) = without_calcDt tr1 ++ without_calcDt tr2.
Proof. apply flat_map_app. Qed.

Lemma later_stages_calcDt t p ks : calcDt_calls (later_stages t p ks) = 0%nat.
Proof. induction ks as [|k ks IH]; simpl; [reflexivity|]. exact IH. Qed.

Lemma later_stages_without_calcDt t p ks :
  without_calcDt (later_stages t p ks) = later_stages t p ks.
Proof. induction ks as [|k ks IH]; simpl; [reflexivity|]. now rewrite IH. Qed.

Lemma timeStepB_silent (f : Z -> Q) (ks : list Z) :
  without_calcDt (map (fun k => TimeStepB k (f k)) ks)
  = map (fun k => TimeStepB k (f k)) ks
  /\ calcDt_calls (map (fun k => TimeStepB k (f k)) ks) = 0%nat.
Proof.
  induction ks as [|k ks [IH1 IH2]]; simpl; [now split|].
  split; [now rewrite IH1 | exact IH2].
Qed.

Lemma calcDt_dropped (b : bool) : without_calcDt (if b then [CalcDt] else []) = [].
Proof. now destruct b. Qed.

Lemma seq_ends (K : nat) : seq 0 (S (S K)) = 0%nat :: seq 1 K ++ [S K].
Proof.
  change (seq 0 (S (S K))) with (0%nat :: seq 1 (S K)).
  now rewrite seq_S.
Qed.

(** A scheme has a natural number of stages. *)
Lemma stages_cases (n : Z) :
  (1 <= n)%Z -> n = 1%Z \/ exists K : nat, n = Z.of_nat (S (S K)).
Proof.
  intros Hn. destruct (Z.eq_dec n 1%Z) as [-> | Hne]; [now left|].
  right. exists (Z.to_nat (n - 2)). lia.
Qed.

(** The stages between the first and the last. *)
Lemma stage_calls_later t new_dt p p1 (ks : list Z) :
  time p1 = time p -> dt p1 = dt_in_force new_dt p ->
  (forall k, In k ks -> (0 < k < nRKSteps t - 1)%Z) ->
  flat_map (stage_calls t new_dt p) ks = later_stages t p1 ks.
Proof.
  intros Ht Hd. induction ks as [|k ks IH]; intros Hks; [reflexivity|].
  cbn [flat_map later_stages]. fold (later_stages t p1 ks).
  rewrite <- IH by (intros k' Hk'; apply Hks; now right).
  assert (Hk : (0 < k < nRKSteps t - 1)%Z) by (apply Hks; now left).
  unfold stage_calls, stage_time.
  replace (k =? 0)%Z with false by (symmetry; apply Z.eqb_neq; lia).
  replace (k =? nRKSteps t - 1)%Z with false by (symmetry; apply Z.eqb_neq; lia).
  replace (k <? nRKSteps t - 1)%Z with true by (symmetry; apply Z.ltb_lt; lia).
  rewrite Ht, Hd. reflexivity.
Qed.

(** X14. On tables that hold every entry it reads, one call of [update]
    for a scheme of [n] stages makes, [calcDt] apart, exactly these
    calls in this order: [copyUspts_U0] when [n > 1]; then for each
    stage [k = 0, ..., n-1] in turn [moveMesh(k)] at the stage time,
    [calcResidual(k)] and, when [k < n-1], [timeStepA(k)] with [RKa[k]];
    then [copyU0_Uspts] when [n > 1]; then [timeStepB(k)] with [RKb[k]]
    for each [k = 0, ..., n-1].  The stage time is [time] for stage 0,
    [time + RKa[k-1] * dt] for a stage [k] in between and [time + dt]
    for the last stage of a scheme of several stages, [dt] being the
    time step in force after the first stage. *)
Theorem update_stage_sequence (t : tables) (new_dt : Q) (p : params) :
  well_formed t ->
  without_calcDt (snd (update t new_dt p))
  = (if (1 <? nRKSteps t)%Z then [CopyUspts_U0] else [])
    ++ flat_map (stage_calls t new_dt p) (zrange (nRKSteps t))
    ++ (if (1 <? nRKSteps t)%Z then [CopyU0_Uspts] else [])
    ++ map (fun k => TimeStepB k (nth (Z.to_nat k) (RKb t) 0))
           (zrange (nRKSteps t)).
Proof.
  intros (Hn & _ & _). destruct (stages_cases _ Hn) as [H1 | [K HK]].
  - rewrite (update_one_stage t new_dt p H1). cbn [snd].
    rewrite without_calcDt_app, calcDt_dropped.
    unfold stage_calls, stage_time. rewrite H1. reflexivity.
  - destruct (update_more_stages t new_dt p K HK) as (p1 & Ht & Hd & ->).
    cbn [snd].
    assert (H1 : (1 <? nRKSteps t)%Z = true) by (apply Z.ltb_lt; lia).
    rewrite H1, HK, zrange_of_nat.
    rewrite !without_calcDt_app, calcDt_dropped, later_stages_without_calcDt.
    rewrite (proj1 (timeStepB_silent _ _)).
    rewrite seq_ends. cbn [map]. rewrite map_app. cbn [map flat_map].
    rewrite flat_map_app. cbn [flat_map].
    rewrite (stage_calls_later t new_dt p p1) by
      (try assumption; intros k Hk; apply in_map_iff in Hk as (i & <- & Hi);
       apply in_seq in Hi; lia).
    unfold stage_calls at 1 2, stage_time.
    rewrite HK. change (Z.of_nat 0) with 0%Z.
    replace (Z.of_nat (S K) =? 0)%Z with false by (symmetry; apply Z.eqb_neq; lia).
    replace (Z.of_nat (S K) =? Z.of_nat (S (S K)) - 1)%Z with true
      by (symmetry; apply Z.eqb_eq; lia).
    replace (0 <? Z.of_nat (S (S K)) - 1)%Z with true
      by (symmetry; apply Z.ltb_lt; lia).
    replace (Z.of_nat (S K) <? Z.of_nat (S (S K)) - 1)%Z with false
      by (symmetry; apply Z.ltb_ge; lia).
    rewrite Ht, Hd. cbn [Z.eqb without_calcDt flat_map app].
    rewrite <- !app_assoc. reflexivity.
Qed.

Lemma update_stage_sequence_witness :
  without_calcDt (snd (update (mkTables 3 [0.5; 1] [0.25; 0.25; 0.5]) 0.1
                              (mkParams 2 0 0.3 1)))
  = [ CopyUspts_U0;
      MoveMesh 0 2; CalcResidual 0; TimeStepA 0 0.5;
      MoveMesh 1 (2 + 0.5 * 0.1); CalcResidual 1; TimeStepA 1 1;
      MoveMesh 2 (2 + 0.1); CalcResidual 2;
      CopyU0_Uspts;
      TimeStepB 0 0.25; TimeStepB 1 0.25; TimeStepB 2 0.5 ].
Proof.
  apply (update_stage_sequence (mkTables 3 [0.5; 1] [0.25; 0.25; 0.5]) 0.1
           (mkParams 2 0 0.3 1)).
  unfold well_formed. simpl. lia.
Defined.

(** X15. One call of [update] on a scheme of at least one stage calls
    [calcDt] exactly once when [dtType] is 1 and never otherwise, and
    advances [time] by the time step then in force, which it leaves in
    [dt]. *)
Theorem update_calcDt_once (t : tables) (new_dt : Q) (p : params) :
  (1 <= nRKSteps t)%Z ->
  calcDt_calls (snd (update t new_dt p))
  = (if (dtType p =? 1)%Z then 1 else 0)%nat
  /\ dt (fst (update t new_dt p)) = dt_in_force new_dt p
  /\ time (fst (update t new_dt p)) = time p + dt_in_force new_dt p.
Proof.
  intros Hn. destruct (stages_cases _ Hn) as [H1 | [K HK]].
  - rewrite (update_one_stage t new_dt p H1). cbn [fst snd].
    unfold dt_in_force. destruct (dtType p =? 1)%Z; now repeat split.
  - destruct (update_more_stages t new_dt p K HK) as (p1 & Ht & Hd & ->).
    cbn [fst snd]. split; [|split].
    + rewrite !calcDt_calls_app, later_stages_calcDt.
      rewrite (proj2 (timeStepB_silent _ _)).
      destruct (dtType p =? 1)%Z; reflexivity.
    + simpl. exact Hd.
    + simpl. now rewrite Ht, Hd.
Qed.

Lemma update_calcDt_once_witness :
  calcDt_calls (snd (update (mkTables 3 [0.5; 1] [0.25; 0.25; 0.5]) 0.1
                            (mkParams 2 0 0.3 1))) = 1%nat
  /\ dt (fst (update (mkTables 3 [0.5; 1] [0.25; 0.25; 0.5]) 0.1
                     (mkParams 2 0 0.3 1))) = 0.1
  /\ time (fst (update (mkTables 3 [0.5; 1] [0.25; 0.25; 0.5]) 0.1
                       (mkParams 2 0 0.3 1))) = 2 + 0.1.
Proof.
  apply (update_calcDt_once (mkTables 3 [0.5; 1] [0.25; 0.25; 0.5]) 0.1
           (mkParams 2 0 0.3 1)).
  simpl. lia.
Defined.

(** X16. The two steps that [setup] and [update] make together.  With
    the scheme installed for type 0, [update] makes the calls of one
    forward Euler step: [calcDt] first when [dtType] is 1, the mesh moved
    and the residual computed at [time], and one [timeStepB] with the
    weight 1.  With the scheme installed for type 4 it makes the calls
    of the four-stage Runge-Kutta step: the solution saved, the mesh
    moved and the residual computed at [time], [time + dt/2],
    [time + dt/2] and [time + dt] ([calcDt] after the first residual when
    [dtType] is 1), the stage advances [timeStepA] with 1/2, 1/2 and 1
    in between, the solution restored, and four [timeStepB] with the
    doubles nearest to 1/6, 1/3, 1/3 and 1/6. *)
Theorem update_installed_schemes (t0 : tables) (new_dt : Q) (p : params) :
  (forall t, setup_time_advancement 0 t0 = Ready t ->
     snd (update t new_dt p)
     = (if (dtType p =? 1)%Z then [CalcDt] else [])
       ++ [MoveMesh 0 (time p); CalcResidual 0; TimeStepB 0 1])
  /\ (forall t, setup_time_advancement 4 t0 = Ready t ->
        snd (update t new_dt p)
        = [CopyUspts_U0; MoveMesh 0 (time p); CalcResidual 0]
          ++ (if (dtType p =? 1)%Z then [CalcDt] else [])
          ++ [ TimeStepA 0 0.5;
               MoveMesh 1 (time p + 0.5 * dt_in_force new_dt p);
               CalcResidual 1; TimeStepA 1 0.5;
               MoveMesh 2 (time p + 0.5 * dt_in_force new_dt p);
               CalcResidual 2; TimeStepA 2 1;
               MoveMesh 3 (time p + dt_in_force new_dt p);
               CalcResidual 3;
               CopyU0_Uspts;
               TimeStepB 0 one_sixth; TimeStepB 1 one_third;
               TimeStepB 2 one_third; TimeStepB 3 one_sixth ]).
Proof.
  split; intros t Ht; injection Ht as <-;
    unfold update, dt_in_force; simpl;
    destruct (dtType p =? 1)%Z; reflexivity.
Qed.

Lemma update_installed_schemes_witness :
  snd (update (mkTables 4 [0.5; 0.5; 1]
                 [one_sixth; one_third; one_third; one_sixth]) 0.1
              (mkParams 2 0 0.3 0))
  = [ CopyUspts_U0; MoveMesh 0 2; CalcResidual 0; TimeStepA 0 0.5;
      MoveMesh 1 (2 + 0.5 * 0.3); CalcResidual 1; TimeStepA 1 0.5;
      MoveMesh 2 (2 + 0.5 * 0.3); CalcResidual 2; TimeStepA 2 1;
      MoveMesh 3 (2 + 0.3); CalcResidual 3;
      CopyU0_Uspts;
      TimeStepB 0 one_sixth; TimeStepB 1 one_third;
      TimeStepB 2 one_third; TimeStepB 3 one_sixth ].
Proof.
  apply (update_installed_schemes (mkTables 0 [] []) 0.1 (mkParams 2 0 0.3 0)).
  reflexivity.
Defined.

End TimeAdvanceFacts.

(** ** Wall force and initial time step *)

Section WallForceFacts.

Import Funcs TimeAdvance.
#[local] Open Scope Q_scope.

(** The inner loop over the dimensions [a, ..., a + len - 1] adds the
    components of [fTmp] to these components of [force] and to no other. *)
Lemma add_range (fTmp : list Q) (len a : nat) (force : list Q) :
  let r := fold_left
             (fun force dim => <[dim := nth dim force 0 + nth dim fTmp 0]> force)
             (seq a len) force in
  length r = length force
  /\ forall d, (d < length force)%nat ->
       nth d r 0 = if (a <=? d)%nat && (d <? a + len)%nat
                   then nth d force 0 + nth d fTmp 0
                   else nth d force 0.
Proof.
  revert a force. induction len as [|len IH]; intros a force; simpl.
  - split; [reflexivity|]. intros d _.
    replace (d <? a + 0)%nat with (d <? a)%nat by (f_equal; lia).
    destruct (Nat.leb_spec a d), (Nat.ltb_spec d a); simpl; try reflexivity; lia.
  - destruct (IH (S a) (<[a := nth a force 0 + nth a fTmp 0]> force))
      as [Hlen Hnth].
    rewrite length_insert in Hlen, Hnth. split; [exact Hlen|].
    intros d Hd. rewrite (Hnth d Hd).
    rewrite !nth_lookup.
    destruct (Nat.eq_dec d a) as [-> | Hne].
    + rewrite list_lookup_insert_eq by assumption.
      replace (S a <=? a)%nat with false by (symmetry; apply Nat.leb_gt; lia).
      replace (a <=? a)%nat with true by (symmetry; apply Nat.leb_le; lia).
      replace (a <? a + S len)%nat with true by (symmetry; apply Nat.ltb_lt; lia).
      reflexivity.
    + rewrite list_lookup_insert_ne by congruence.
      replace (d <? S a + len)%nat with (d <? a + S len)%nat by (f_equal; lia).
      destruct (Nat.leb_spec (S a) d), (Nat.leb_spec a d); simpl;
        try reflexivity; lia.
Qed.

Lemma add_force_length (n : nat) (force fTmp : list Q) :
  length (add_force n force fTmp) = length force.
Proof. apply (add_range fTmp n 0 force). Qed.

Lemma add_force_nth (n : nat) (force fTmp : list Q) (d : nat) :
  (d < n)%nat -> (n <= length force)%nat ->
  nth d (add_force n force fTmp) 0 = nth d force 0 + nth d fTmp 0.
Proof.
  intros Hd Hn. unfold add_force.
  rewrite (proj2 (add_range fTmp n 0 force) d) by lia.
  replace (0 <=? d)%nat with true by (symmetry; apply Nat.leb_le; lia).
  replace (d <? 0 + n)%nat with true by (symmetry; apply Nat.ltb_lt; lia).
  reflexivity.
Qed.

Lemma faces_loop (n : nat) (faces : list (list Q)) (force : list Q) :
  length force = n ->
  length (fold_left (add_force n) faces force) = n
  /\ forall d, (d < n)%nat ->
       nth d (fold_left (add_force n) faces force) 0
       = fold_left Qplus (map (fun f => nth d f 0) faces) (nth d force 0).
Proof.
  revert force. induction faces as [|f faces IH]; intros force Hlen; simpl.
  - now split.
  - destruct (IH (add_force n force f)) as [Hl Hn].
    { now rewrite add_force_length. }
    split; [exact Hl|]. intros d Hd.
    rewrite (Hn d Hd), add_force_nth by lia. reflexivity.
Qed.

(** X17. For a dimension count from 0 to [INT_MAX] and faces whose
    forces have that many components, [computeWallForce] returns the
    vector of the component-wise sums of the faces' forces, added in face
    order; without faces it returns the zero vector.  A negative
    dimension count makes the constructor of the result throw. *)
Theorem computeWallForce_sum (nDims : Z) (faces : list (list Q)) :
  ((0 <= nDims <= INT_MAX)%Z ->
   (forall f, In f faces -> (Z.to_nat nDims <= length f)%nat) ->
   computeWallForce nDims faces
   = Ok (map (component_sum faces) (seq 0 (Z.to_nat nDims))))
  /\ ((0 <= nDims <= INT_MAX)%Z ->
      computeWallForce nDims [] = Ok (repeat 0 (Z.to_nat nDims)))
  /\ ((INT_MIN <= nDims < 0)%Z ->
      computeWallForce nDims faces = Throw length_error).
Proof.
  split; [|split].
  - intros Hr _. unfold computeWallForce.
    rewrite (to_size_t_small nDims Hr).
    replace (max_size <? nDims)%Z with false.
    2:{ symmetry. apply Z.ltb_ge. unfold INT_MAX in Hr.
        assert (2 ^ 31 <= max_size)%Z by (vm_compute; discriminate). lia. }
    f_equal.
    destruct (faces_loop (Z.to_nat nDims) faces (repeat 0 (Z.to_nat nDims)))
      as [Hl Hn]; [apply repeat_length|].
    apply nth_ext with (d := 0) (d' := 0).
    + now rewrite Hl, length_map, length_seq.
    + intros d Hd. rewrite Hl in Hd. rewrite (Hn d Hd).
      rewrite (nth_indep (map (component_sum faces) (seq 0 (Z.to_nat nDims)))
                 0 (component_sum faces 0))
        by now rewrite length_map, length_seq.
      rewrite map_nth, seq_nth by assumption. simpl.
      unfold component_sum. f_equal.
      apply nth_repeat.
  - intros Hr. unfold computeWallForce.
    rewrite (to_size_t_small nDims Hr).
    replace (max_size <? nDims)%Z with false; [reflexivity|].
    symmetry. apply Z.ltb_ge. unfold INT_MAX in Hr.
    assert (2 ^ 31 <= max_size)%Z by (vm_compute; discriminate). lia.
  - intros Hneg. unfold computeWallForce.
    pose proof (resize_negative [] nDims Hneg) as H. unfold resize in H.
    destruct (max_size <? to_size_t nDims)%Z; [reflexivity | discriminate H].
Qed.

Lemma computeWallForce_sum_witness :
  computeWallForce 2 [[1; 2]; [10; 20]; [0.5; 0.25]]
  = Ok [0 + 1 + 10 + 0.5; 0 + 2 + 20 + 0.25]
  /\ computeWallForce 3 [] = Ok [0; 0; 0]
  /\ computeWallForce (-1) [[1; 2]] = Throw length_error.
Proof.
  destruct (computeWallForce_sum 2 [[1; 2]; [10; 20]; [0.5; 0.25]])
    as (H1 & _ & _).
  destruct (computeWallForce_sum 3 []) as (_ & H2 & _).
  destruct (computeWallForce_sum (-1) [[1; 2]]) as (_ & _ & H3).
  assert (Hr2 : (0 <= 2 <= INT_MAX)%Z) by (unfold INT_MAX; lia).
  assert (Hr3 : (0 <= 3 <= INT_MAX)%Z) by (unfold INT_MAX; lia).
  assert (Hn : (INT_MIN <= -1 < 0)%Z) by (unfold INT_MIN; lia).
  split; [|split].
  - apply (H1 Hr2). intros f [<- | [<- | [<- | []]]]; simpl; lia.
  - apply (H2 Hr3).
  - apply (H3 Hn).
Defined.

(** *** initializeSolution *)

Section InitialTimeStep.

Variable ele : Type.
Variable ele_calcWaveSpFpts : ele -> ele.
Variable ele_calcDt : ele -> Q.

Lemma init_thread_loop_calcDt (iterations : list ele) :
  init_thread_loop ele ele_calcWaveSpFpts ele_calcDt iterations
  = Solver.thread_loop ele (fun e => ele_calcDt (ele_calcWaveSpFpts e)) iterations.
Proof. reflexivity. Qed.

(** X18. [initializeSolution] touches [params->dt] only when [dtType]
    is 1.  Then, for a nonempty element list and however the iterations
    are dealt to the threads, it assigns the minimum of the time steps
    that the elements report after their wave speeds were computed, the
    value [calcDt] would assign on those elements. *)
Theorem initializeSolution_dt (b : Solver.build) (dtType : Z)
    (eles : list ele) (world : list (list (list ele))) (rank : nat)
    (schedule : list (list ele)) (params : Solver.input) :
  (dtType <> 1%Z ->
     initializeSolution ele ele_calcWaveSpFpts ele_calcDt b dtType world rank params
     = params)
  /\ (dtType = 1%Z ->
      initializeSolution ele ele_calcWaveSpFpts ele_calcDt b dtType world rank params
      = Solver.calcDt ele (fun e => ele_calcDt (ele_calcWaveSpFpts e))
                      b world rank params)
  /\ (dtType = 1%Z -> eles <> [] -> world !! rank = Some schedule ->
      Permutation (concat schedule) eles ->
      Solver.is_minimum
        (Solver.dt (initializeSolution ele ele_calcWaveSpFpts ele_calcDt
                      Solver.NoMPI dtType world rank params))
        (map (fun e => ele_calcDt (ele_calcWaveSpFpts e)) eles)).
Proof.
  split; [|split].
  - intros Hne. unfold initializeSolution.
    apply Z.eqb_neq in Hne. now rewrite Hne.
  - intros ->. reflexivity.
  - intros -> Hne Hrank Hperm. simpl.
    rewrite nth_lookup, Hrank. simpl.
    apply (local_dt_minimum ele (fun e => ele_calcDt (ele_calcWaveSpFpts e))
             eles schedule Hne Hperm).
Qed.

End InitialTimeStep.

Lemma initializeSolution_dt_witness :
  initializeSolution Q (fun v => v + 1) id Solver.WithMPI 0
    [[[3]; [1; 2]]] 0 (Solver.mkInput (Solver.Finite 7))
  = Solver.mkInput (Solver.Finite 7)
  /\ Solver.is_minimum
       (Solver.dt (initializeSolution Q (fun v => v + 1) id Solver.NoMPI 1
                     [[[3]; [1; 2]]] 0 (Solver.mkInput (Solver.Finite 7))))
       (map (fun v => id (v + 1)) [3; 1; 2]).
Proof.
  split.
  - apply (initializeSolution_dt Q (fun v => v + 1) id Solver.WithMPI 0
             [3; 1; 2] [[[3]; [1; 2]]] 0 [[3]; [1; 2]]
             (Solver.mkInput (Solver.Finite 7))).
    discriminate.
  - apply (initializeSolution_dt Q (fun v => v + 1) id Solver.NoMPI 1
             [3; 1; 2] [[[3]; [1; 2]]] 0 [[3]; [1; 2]]
             (Solver.mkInput (Solver.Finite 7)));
      try reflexivity.
    discriminate.
Defined.

End WallForceFacts.
